(** * A sharded concurrent map: shallow embedding and verification

    The Go package keeps a [ConcurrentMap]: a slice of [totalShardCount]
    pointers to shards, every shard a Go [map[string]interface{}] guarded by a
    [sync.RWMutex].  A key is routed to one shard by the 32-bit hash [fnv32].

    The embedding follows the source function by function.  A shard pointer is
    the index of the shard in the slice (the constructor allocates one fresh
    shard per index, so pointers and indices correspond); the items of a shard
    are a [gmap string iface]; the mutex is an explicit state, so that a call
    which leaves a lock held, or which needs a lock somebody holds, is visible
    in the result.  Operations are written in a small state monad whose
    results are: returned, panicked, or blocked for ever.

    The logger of the package is embedded after the map: its settings, the
    lines it prints and the exit status are a record that every call
    transforms; what the clock, the runtime, [fmt] and [encoding/json] give
    are arguments. *)

From Stdlib Require Import ZArith DecimalString.
From stdpp Require Import gmap strings list fin_maps.

Open Scope Z_scope.

(** ** Values *)

(** [interface{}]: the nil interface value or a dynamic value.  The dynamic
    types listed are those the scenarios store. *)
Inductive iface : Type :=
  | nil_iface
  | int_iface (n : Z)
  | string_iface (s : string)
  | bool_iface (b : bool).

#[global] Instance iface_eq_dec : EqDecision iface.
Proof. solve_decision. Defined.

(** [type Tuple struct { Key string; Val interface{} }] *)
Record Tuple := mkTuple { Key : string; Val : iface }.

#[global] Instance Tuple_eq_dec : EqDecision Tuple.
Proof. solve_decision. Defined.

(** ** The router *)

Definition totalShardCount : Z := 32.

Definition uint32 (z : Z) : Z := z mod 2 ^ 32.

Definition prime32 : Z := 16777619.

(** The body of the loop of [fnv32], on the bytes from position [i] on:
    [hash *= prime32; hash ^= uint32(key[i])]. *)
Fixpoint fnv32_loop (key : string) (hash : Z) : Z :=
  match key with
  | EmptyString => hash
  | String c rest =>
      let hash := uint32 (hash * prime32) in
      let hash := Z.lxor hash (uint32 (Z.of_N (Ascii.N_of_ascii c))) in
      fnv32_loop rest hash
  end.

Definition fnv32 (key : string) : Z := fnv32_loop key (uint32 2166136261).

(** [uint(fnv32(key)) % uint(totalShardCount)] *)
Definition shard_index (key : string) : nat :=
  Z.to_nat (fnv32 key mod totalShardCount).

(** The router in the words of the specification: start from the seed and,
    for each byte in order, multiply by the prime, then XOR the byte in; all
    modulo 2^32; reduce modulo N. *)
Definition bytes_of (key : string) : list Z :=
  (fun c => Z.of_N (Ascii.N_of_ascii c)) <$> String.list_ascii_of_string key.

Definition route_step (h byte : Z) : Z :=
  Z.lxor ((h * 16777619) mod 2 ^ 32) byte mod 2 ^ 32.

Definition route_hash (key : string) : Z :=
  foldl route_step 2166136261 (bytes_of key).

Definition route (key : string) (N : Z) : Z := route_hash key mod N.

(** ** Shards and their locks *)

(** [sync.RWMutex]: held by one writer, or by [readers] readers, or free. *)
Record RWMutex := mkRWMutex { writer : bool; readers : nat }.

Definition unlocked : RWMutex := mkRWMutex false 0.

#[global] Instance RWMutex_eq_dec : EqDecision RWMutex.
Proof. solve_decision. Defined.

Record ConcurrentMapShared := mkShard {
  items : gmap string iface;
  mu : RWMutex
}.

(** [type ConcurrentMap []*ConcurrentMapShared] *)
Abbreviation ConcurrentMap := (list ConcurrentMapShared).

(** ** Results of a call *)

Inductive outcome (S A : Type) : Type :=
  | Returned (a : A) (s : S)
  | Panicked (p : iface) (s : S)
  | Blocked (s : S).
Arguments Returned {S A} a s.
Arguments Panicked {S A} p s.
Arguments Blocked {S A} s.

Definition M (S A : Type) : Type := S → outcome S A.

Definition ret {S A} (a : A) : M S A := λ s, Returned a s.

Definition bind {S A B} (c : M S A) (k : A → M S B) : M S B :=
  λ s, match c s with
       | Returned a s' => k a s'
       | Panicked p s' => Panicked p s'
       | Blocked s' => Blocked s'
       end.

Definition panic {S A} (p : iface) : M S A := λ s, Panicked p s.

#[global] Instance M_ret {S} : MRet (M S) := λ A, ret.
#[global] Instance M_bind {S} : MBind (M S) := λ A B k c, bind c k.

(** The state a call ends in, whatever the result. *)
Definition final {S A} (o : outcome S A) : S :=
  match o with Returned _ s | Panicked _ s | Blocked s => s end.

(** ** Primitive steps on the shard behind a pointer *)

Definition nil_deref : iface :=
  string_iface "runtime error: invalid memory address or nil pointer dereference".
Definition index_out_of_range : iface :=
  string_iface "runtime error: index out of range".
Definition unlock_of_unlocked : iface :=
  string_iface "fatal error: sync: Unlock of unlocked RWMutex".

(** Run [f] on the shard [i] points to. *)
Definition on_shard {A} (i : nat)
    (f : ConcurrentMapShared → option (A * ConcurrentMapShared)) :
    M ConcurrentMap A :=
  λ m, match m !! i with
       | None => Panicked nil_deref m
       | Some sh =>
           match f sh with
           | Some (a, sh') => Returned a (<[i := sh']> m)
           | None => Blocked m
           end
       end.

(** [shard.Lock()]: waits until nobody holds the mutex. *)
Definition Lock (i : nat) : M ConcurrentMap unit :=
  on_shard i (λ sh,
    if writer (mu sh) || negb (Nat.eqb (readers (mu sh)) 0) then None
    else Some (tt, mkShard (items sh) (mkRWMutex true 0))).

(** [shard.Unlock()] *)
Definition Unlock (i : nat) : M ConcurrentMap unit :=
  λ m, match m !! i with
       | None => Panicked nil_deref m
       | Some sh =>
           if writer (mu sh)
           then Returned tt (<[i := mkShard (items sh) (mkRWMutex false (readers (mu sh)))]> m)
           else Panicked unlock_of_unlocked m
       end.

(** [shard.RLock()]: waits while a writer holds the mutex. *)
Definition RLock (i : nat) : M ConcurrentMap unit :=
  on_shard i (λ sh,
    if writer (mu sh) then None
    else Some (tt, mkShard (items sh) (mkRWMutex false (S (readers (mu sh)))))).

(** [shard.RUnlock()] *)
Definition RUnlock (i : nat) : M ConcurrentMap unit :=
  λ m, match m !! i with
       | None => Panicked nil_deref m
       | Some sh =>
           match readers (mu sh) with
           | O => Panicked unlock_of_unlocked m
           | S n => Returned tt (<[i := mkShard (items sh) (mkRWMutex (writer (mu sh)) n)]> m)
           end
       end.

(** [v, ok := shard.items[key]]: the zero value and [false] when absent. *)
Definition load (i : nat) (key : string) : M ConcurrentMap (iface * bool) :=
  on_shard i (λ sh,
    match items sh !! key with
    | Some v => Some ((v, true), sh)
    | None => Some ((nil_iface, false), sh)
    end).

(** [shard.items[key] = value] *)
Definition store (i : nat) (key : string) (value : iface) : M ConcurrentMap unit :=
  on_shard i (λ sh, Some (tt, mkShard (<[key := value]> (items sh)) (mu sh))).

(** [delete(shard.items, key)] *)
Definition delete_key (i : nat) (key : string) : M ConcurrentMap unit :=
  on_shard i (λ sh, Some (tt, mkShard (delete key (items sh)) (mu sh))).

(** [len(shard.items)] *)
Definition len_items (i : nat) : M ConcurrentMap nat :=
  on_shard i (λ sh, Some (size (items sh), sh)).

(** [m[i]], with the bounds check of a slice. *)
Definition index (i : nat) : M ConcurrentMap nat :=
  λ m, if decide (i < length m)%nat then Returned i m
       else Panicked index_out_of_range m.

(** ** The operations of the map *)

(** [NewConcurrentMap] *)
Definition NewConcurrentMap : ConcurrentMap :=
  replicate (Z.to_nat totalShardCount) (mkShard ∅ unlocked).

Definition GetShard (key : string) : M ConcurrentMap nat :=
  index (shard_index key).

Definition Set_ (key : string) (value : iface) : M ConcurrentMap unit :=
  shard ← GetShard key;
  Lock shard;;
  store shard key value;;
  Unlock shard.

Definition Get (key : string) : M ConcurrentMap (iface * bool) :=
  shard ← GetShard key;
  RLock shard;;
  '(val, ok) ← load shard key;
  RUnlock shard;;
  mret (val, ok).

Definition Has (key : string) : M ConcurrentMap bool :=
  shard ← GetShard key;
  RLock shard;;
  '(_, ok) ← load shard key;
  RUnlock shard;;
  mret ok.

(** [MSet]: [for key, value := range data] visits the entries of [data] in an
    order Go leaves unspecified; [order] is the order of one run. *)
Definition range_order {V} (data : gmap string V) (order : list (string * V)) : Prop :=
  order ≡ₚ map_to_list data.

Fixpoint MSet_range (order : list (string * iface)) : M ConcurrentMap unit :=
  match order with
  | [] => mret tt
  | (key, value) :: rest =>
      shard ← GetShard key;
      Lock shard;;
      store shard key value;;
      Unlock shard;;
      MSet_range rest
  end.

(** ** The combinator of [UpdateOrInsert] *)

(** A Go closure may read and write the variables it captured and may panic:
    a callback is a function on the caller's environment [C] which returns a
    value or panics.  It has no access to the map (the source warns against
    that: the shard is locked while it runs). *)
Inductive cb_result : Type :=
  | cb_return (res : iface)
  | cb_panic (p : iface).

Definition UpdateOrInsertCb (C : Type) : Type :=
  bool → iface → iface → C → cb_result * C.

(** A step on the map, run in a state that also holds the environment. *)
Definition on_map {C A} (c : M ConcurrentMap A) : M (ConcurrentMap * C) A :=
  λ s, match c s.1 with
       | Returned a m' => Returned a (m', s.2)
       | Panicked p m' => Panicked p (m', s.2)
       | Blocked m' => Blocked (m', s.2)
       end.

(** [cb(ok, v, value)] *)
Definition call {C} (cb : UpdateOrInsertCb C) (ok : bool) (v value : iface) :
    M (ConcurrentMap * C) iface :=
  λ s, match cb ok v value s.2 with
       | (cb_return res, e') => Returned res (s.1, e')
       | (cb_panic p, e') => Panicked p (s.1, e')
       end.

Definition UpdateOrInsert {C} (key : string) (value : iface)
    (cb : UpdateOrInsertCb C) : M (ConcurrentMap * C) iface :=
  shard ← on_map (GetShard key);
  on_map (Lock shard);;
  '(v, ok) ← on_map (load shard key);
  res ← call cb ok v value;
  on_map (store shard key res);;
  on_map (Unlock shard);;
  mret res.

Definition SetIfAbsent (key : string) (value : iface) : M ConcurrentMap bool :=
  shard ← GetShard key;
  Lock shard;;
  '(_, ok) ← load shard key;
  (if negb ok then store shard key value else mret tt);;
  Unlock shard;;
  mret (negb ok).

(** The loop of [Count]: [todo] iterations are left, the next one reads
    shard [i]. *)
Fixpoint Count_loop (todo i count : nat) : M ConcurrentMap nat :=
  match todo with
  | O => mret count
  | S todo' =>
      shard ← index i;
      RLock shard;;
      n ← len_items shard;
      RUnlock shard;;
      Count_loop todo' (S i) (count + n)%nat
  end.

Definition Count : M ConcurrentMap nat :=
  Count_loop (Z.to_nat totalShardCount) 0 0.

Definition Remove (key : string) : M ConcurrentMap unit :=
  shard ← GetShard key;
  Lock shard;;
  delete_key shard key;;
  Unlock shard.

Definition Pop (key : string) : M ConcurrentMap (iface * bool) :=
  shard ← GetShard key;
  Lock shard;;
  '(v, exists_) ← load shard key;
  delete_key shard key;;
  Unlock shard;;
  mret (v, exists_).

Definition IsEmpty : M ConcurrentMap bool :=
  count ← Count;
  mret (Nat.eqb count 0).

(** ** Channels and the fan-in *)

(** Several goroutines each hold a sequence of items still to send
    ([pending]); all send into one channel of capacity [cap], whose queue is
    [buffer]; the consumer has [received] so far.  One step is one
    communication; which goroutine moves is up to the scheduler. *)
Record pipeline (T : Type) := mkPipeline {
  pending : list (list T);
  buffer : list T;
  received : list T
}.
Arguments mkPipeline {T} pending buffer received.
Arguments pending {T} p.
Arguments buffer {T} p.
Arguments received {T} p.

Inductive comm {T} (cap : nat) : pipeline T → pipeline T → Prop :=
  | comm_enqueue i t rest ps buf rcv :
      (* a send into a queue that has room *)
      ps !! i = Some (t :: rest) →
      (length buf < cap)%nat →
      comm cap (mkPipeline ps buf rcv) (mkPipeline (<[i := rest]> ps) (buf ++ [t]) rcv)
  | comm_handoff i t rest ps rcv :
      (* a send met by the waiting consumer *)
      ps !! i = Some (t :: rest) →
      comm cap (mkPipeline ps [] rcv) (mkPipeline (<[i := rest]> ps) [] (rcv ++ [t]))
  | comm_dequeue t ps buf rcv :
      (* the consumer takes the head of the queue *)
      comm cap (mkPipeline ps (t :: buf) rcv) (mkPipeline ps buf (rcv ++ [t])).

(** Every sender is done and the queue is empty: the channel is closed and
    the consumer's [range] loop ends. *)
Definition drained {T} (p : pipeline T) : Prop :=
  Forall (λ ch, ch = []) (pending p) ∧ buffer p = [].

(** [output] is what a consumer that drains the channel to its end gets. *)
Definition fan {T} (cap : nat) (sources : list (list T)) (output : list T) : Prop :=
  ∃ p, rtc (comm cap) (mkPipeline sources [] []) p ∧ drained p ∧ received p = output.

(** The schedule that lets the goroutines run one after the other. *)
Definition fan_in_turn {T} (sources : list (list T)) : list T := concat sources.

(** ** Iteration *)

Definition tuple_of (kv : string * iface) : Tuple := mkTuple kv.1 kv.2.

(** [snapshot]: the goroutine of shard [index] takes the read lock, sends the
    shard's entries (in the order its [range] loop meets them) into a channel
    sized for them, and closes it.  [channels] holds what each channel
    contains once all of them are closed. *)
Definition snapshot (m : ConcurrentMap) (channels : list (list Tuple)) : Prop :=
  length m = Z.to_nat totalShardCount ∧
  Forall2 (λ sh ch, writer (mu sh) = false ∧
                    ∃ order, range_order (items sh) order ∧ ch = tuple_of <$> order)
          m channels.

(** [fanIn]: one goroutine per channel forwards into [out]. *)
Definition fanIn (cap : nat) (channels : list (list Tuple)) (out : list Tuple) : Prop :=
  fan cap channels out.

(** [Iterator]: [out] is unbuffered. *)
Definition Iterator (m : ConcurrentMap) (out : list Tuple) : Prop :=
  ∃ channels, snapshot m channels ∧ fanIn 0 channels out.

(** [IteratorBuffered]: [out] has room for the capacities of all channels. *)
Definition IteratorBuffered (m : ConcurrentMap) (out : list Tuple) : Prop :=
  ∃ channels, snapshot m channels ∧
    let total := foldl (λ total c, (total + length c)%nat) 0%nat channels in
    fanIn total channels out.

(** [Items]: the tuples of [IteratorBuffered], stored one by one in [tmp]. *)
Definition collect (out : list Tuple) : gmap string iface :=
  foldl (λ tmp item, <[Key item := Val item]> tmp) ∅ out.

Definition Items (m : ConcurrentMap) (tmp : gmap string iface) : Prop :=
  ∃ out, IteratorBuffered m out ∧ tmp = collect out.

(** [Keys]: the goroutine of each shard sends the shard's keys, under the read
    lock, into a channel with room for [Count()] keys; the caller appends what
    it receives. *)
Definition Keys (m : ConcurrentMap) (keys : list string) : Prop :=
  ∃ count sources,
    Count m = Returned count m ∧
    Forall2 (λ sh src, writer (mu sh) = false ∧
                       ∃ order, range_order (items sh) order ∧ src = order.*1)
            m sources ∧
    fan count sources keys.

(** One run of the iteration, for evaluation: every [range] loop in the order
    of [map_to_list], the goroutines one after the other. *)
Definition snapshot_in_turn (m : ConcurrentMap) : list (list Tuple) :=
  (λ sh, tuple_of <$> map_to_list (items sh)) <$> m.

Definition Iterator_in_turn (m : ConcurrentMap) : list Tuple :=
  fan_in_turn (snapshot_in_turn m).

Definition Keys_in_turn (m : ConcurrentMap) : list string :=
  fan_in_turn ((λ sh, (map_to_list (items sh)).*1) <$> m).

(** ** States of the map *)

(** The slice has its [totalShardCount] shards. *)
Definition sized (m : ConcurrentMap) : Prop :=
  length m = Z.to_nat totalShardCount.

(** No lock is held: no call is in progress. *)
Definition quiescent (m : ConcurrentMap) : Prop :=
  Forall (λ sh, mu sh = unlocked) m.

(** Every key sits in the shard the router gives it. *)
Definition routed (m : ConcurrentMap) : Prop :=
  ∀ i sh k, m !! i = Some sh → is_Some (items sh !! k) → i = shard_index k.

(** The items of shard [i] replaced by [f] of them, the lock as it was. *)
Definition with_items (f : gmap string iface → gmap string iface) (i : nat)
    (m : ConcurrentMap) : ConcurrentMap :=
  alter (λ sh, mkShard (f (items sh)) (mu sh)) i m.

(** The items of the shard the router gives [key]. *)
Definition shard_items (m : ConcurrentMap) (key : string) : gmap string iface :=
  from_option items ∅ (m !! shard_index key).

(** The size of every shard's map, in the order of the slice. *)
Definition sizes (m : ConcurrentMap) : list nat := (λ sh, size (items sh)) <$> m.

(** The keys present anywhere in the map. *)
Definition keys_present (m : ConcurrentMap) : gset string :=
  ⋃ ((λ sh, dom (items sh)) <$> m).

(** The entries of all shards, shard after shard. *)
Definition entries (m : ConcurrentMap) : list (string * iface) :=
  concat ((λ sh, map_to_list (items sh)) <$> m).

(** What a pipeline still holds or has delivered. *)
Definition in_flight {T} (p : pipeline T) : list T :=
  received p ++ buffer p ++ concat (pending p).

(** The states calls of the mutating operations lead to from a new map.
    A call counts with whatever result it has: the state it returns in, the
    state it panics in, the state it is stuck in. *)
Inductive reachable : ConcurrentMap → Prop :=
  | reach_New : reachable NewConcurrentMap
  | reach_Set m key value :
      reachable m → reachable (final (Set_ key value m))
  | reach_MSet m (data : gmap string iface) order :
      reachable m → range_order data order →
      reachable (final (MSet_range order m))
  | reach_SetIfAbsent m key value :
      reachable m → reachable (final (SetIfAbsent key value m))
  | reach_UpdateOrInsert {C} m key value (cb : UpdateOrInsertCb C) (e : C) :
      reachable m → reachable (final (UpdateOrInsert key value cb (m, e))).1
  | reach_Remove m key :
      reachable m → reachable (final (Remove key m))
  | reach_Pop m key :
      reachable m → reachable (final (Pop key m)).

(** [c], started in a state where [I] holds, ends in a state where [I]
    holds, and a value it returns satisfies [Q]. *)
Definition maintains {S A} (I : S → Prop) (c : M S A) (Q : A → Prop) : Prop :=
  ∀ s, I s →
    match c s with
    | Returned a s' => I s' ∧ Q a
    | Panicked _ s' => I s'
    | Blocked s' => I s'
    end.

(** The invariant of the map: all shards are there, every key is in the
    shard the router gives it. *)
Definition wf (m : ConcurrentMap) : Prop := sized m ∧ routed m.

(** No key is in two shards. *)
Definition apart (m : ConcurrentMap) : Prop :=
  ∀ i j shi shj k,
    m !! i = Some shi → m !! j = Some shj →
    is_Some (items shi !! k) → is_Some (items shj !! k) → i = j.

(** ** States of the scenarios *)

(** [set("a", 1)], [set("b", 2)] on a new map, and then [remove("a")]. *)
Definition scenario_ab : ConcurrentMap :=
  final (Set_ "b" (int_iface 2) (final (Set_ "a" (int_iface 1) NewConcurrentMap))).

Definition scenario_b : ConcurrentMap := final (Remove "a" scenario_ab).

(** ** Combinators of the scenarios *)

(** Go's [int] on a 64-bit platform. *)
Definition int64 (z : Z) : Z := (z + 2 ^ 63) mod 2 ^ 64 - 2 ^ 63.

(** [existed ? current + candidate : candidate]; the addition asserts that
    both values are integers. *)
Definition sum_cb : UpdateOrInsertCb unit :=
  λ exist valueInMap newValue e,
    if exist then
      match valueInMap, newValue with
      | int_iface a, int_iface b => (cb_return (int_iface (int64 (a + b))), e)
      | _, _ => (cb_panic (string_iface "interface conversion: interface {} is not int"), e)
      end
    else (cb_return newValue, e).

(** A combinator that computes its result with [f] and appends the
    arguments of every call to a log it captured. *)
Definition recording (f : bool → iface → iface → iface) :
    UpdateOrInsertCb (list (bool * iface * iface)) :=
  λ exist valueInMap newValue log,
    (cb_return (f exist valueInMap newValue), log ++ [(exist, valueInMap, newValue)]).

(** A combinator that panics. *)
Definition panicking_cb : UpdateOrInsertCb unit :=
  λ _ _ _ e, (cb_panic (string_iface "combinator failed"), e).

(** ** Iteration with a callback *)

(** [type IteratorCb func(key string, v interface{})]: like the combinator, a
    function on the caller's environment; it returns nothing, or panics. *)
Inductive fn_result : Type :=
  | fn_return
  | fn_panic (p : iface).

Definition IteratorCb_fn (C : Type) : Type :=
  string → iface → C → fn_result * C.

(** [fn(key, value)] *)
Definition call_fn {C} (fn : IteratorCb_fn C) (key : string) (value : iface) :
    M (ConcurrentMap * C) unit :=
  λ s, match fn key value s.2 with
       | (fn_return, e') => Returned tt (s.1, e')
       | (fn_panic p, e') => Panicked p (s.1, e')
       end.

(** [for key, value := range shard.items { fn(key, value) }], the entries
    met in the order [order]. *)
Fixpoint IteratorCb_range {C} (fn : IteratorCb_fn C) (order : list (string * iface)) :
    M (ConcurrentMap * C) unit :=
  match order with
  | [] => mret tt
  | (key, value) :: rest =>
      call_fn fn key value;;
      IteratorCb_range fn rest
  end.

(** [for idx := range m]: one iteration per shard of the slice; [orders]
    gives, shard by shard from [idx] on, the order of the inner loop. *)
Fixpoint IteratorCb_loop {C} (fn : IteratorCb_fn C)
    (orders : list (list (string * iface))) (idx : nat) : M (ConcurrentMap * C) unit :=
  match orders with
  | [] => mret tt
  | order :: orders' =>
      shard ← on_map (index idx);
      on_map (RLock shard);;
      IteratorCb_range fn order;;
      on_map (RUnlock shard);;
      IteratorCb_loop fn orders' (S idx)
  end.

Definition IteratorCb {C} (fn : IteratorCb_fn C)
    (orders : list (list (string * iface))) : M (ConcurrentMap * C) unit :=
  IteratorCb_loop fn orders 0.

(** [orders] has, for every shard of [m], an order its [range] loop can take. *)
Definition range_orders (m : ConcurrentMap) (orders : list (list (string * iface))) : Prop :=
  Forall2 (λ sh order, range_order (items sh) order) m orders.



(** A callback that panics on the key [bad] and counts the other calls. *)
Definition panic_on (bad : string) : IteratorCb_fn nat :=
  λ key value n,
    if decide (key = bad) then (fn_panic (string_iface "callback failed"), n)
    else (fn_return, S n).

(** A combinator that returns its candidate. *)
Definition candidate_cb : UpdateOrInsertCb unit :=
  λ _ _ newValue e, (cb_return newValue, e).

(** The shards of [s] other than [i] are those of [m]. *)
Definition only_shard (m : ConcurrentMap) (i : nat) (s : ConcurrentMap) : Prop :=
  length s = length m ∧ ∀ j, j ≠ i → s !! j = m !! j.

(** The orders of the [range] loops that [map_to_list] gives. *)
Definition orders_in_turn (m : ConcurrentMap) : list (list (string * iface)) :=
  (λ sh, map_to_list (items sh)) <$> m.

(** ** States with a lock left held *)

(** A new map after a call of [UpdateOrInsert] whose combinator panicked. *)
Definition scenario_write_locked : ConcurrentMap :=
  (final (UpdateOrInsert "c" (int_iface 5) panicking_cb (NewConcurrentMap, tt))).1.

(** The map with a and b after a call of [IteratorCb] whose callback
    panicked on a, and the shard of a in it. *)
Definition scenario_read_locked : ConcurrentMap :=
  (final (IteratorCb (panic_on "a") (orders_in_turn scenario_ab) (scenario_ab, 0%nat))).1.

Definition shard_a_read_locked : ConcurrentMapShared :=
  mkShard {[ "a" := int_iface 1 ]} (mkRWMutex false 1).

(** * The logger *)

Definition LogFatal : Z := -1.
Definition LogError : Z := 0.
Definition LogWarning : Z := 1.
Definition LogInfo : Z := 2.
Definition LogDebug : Z := 3.

Definition logUnknownString : string := "unknown".
Definition logFatalString : string := "fatal".
Definition logErrorString : string := "error".
Definition logInfoString : string := "info".
Definition logWarningString : string := "warning".
Definition logDebugString : string := "debug".

Definition LogTextFormat : Z := 0.

Record logWrapper := mkLogWrapper {
  CurrentLogSeverity : Z;
  CurrentLogFormat : Z;
  StringifyEventFlag : bool
}.

(** [var lwInst]: the settings a process starts with. *)
Definition lwInst : logWrapper := mkLogWrapper LogInfo LogTextFormat true.

(** The process, as far as the logger goes: the current settings, the lines
    the standard logger has printed, and the exit status once [os.Exit] was
    called. *)
Record process := mkProcess {
  settings : logWrapper;
  printed : list string;
  exit_status : option Z
}.

Definition start : process := mkProcess lwInst [] None.

Definition SetLogSeverity (severity : Z) (p : process) : process :=
  mkProcess (mkLogWrapper severity (CurrentLogFormat (settings p))
                          (StringifyEventFlag (settings p)))
            (printed p) (exit_status p).


Definition StringifyEvent (s : bool) (p : process) : process :=
  mkProcess (mkLogWrapper (CurrentLogSeverity (settings p))
                          (CurrentLogFormat (settings p)) s)
            (printed p) (exit_status p).

(** [log.Println(row)] with the flags 0: the row, as one line. *)
Definition Println (row : string) (p : process) : process :=
  mkProcess (settings p) (printed p ++ [row]) (exit_status p).

(** [os.Exit(code)] *)
Definition Exit (code : Z) (p : process) : process :=
  mkProcess (settings p) (printed p) (Some code).

(** An event: a plain value (nil included) or a [map[string]interface{}]. *)
Inductive log_event : Type :=
  | ev (v : iface)
  | ev_map (c : gmap string iface).

(** [event != nil] *)
Definition not_nil (event : log_event) : bool :=
  match event with
  | ev nil_iface => false
  | _ => true
  end.

Definition eventToEventId (id : string) (event : iface) : log_event :=
  let c : gmap string iface := ∅ in
  let c := <[id := event]> c in
  ev_map c.

Definition severityToString (severity : Z) : string :=
  if decide (severity = LogFatal) then logFatalString
  else if decide (severity = LogError) then logErrorString
  else if decide (severity = LogInfo) then logInfoString
  else if decide (severity = LogWarning) then logWarningString
  else if decide (severity = LogDebug) then logDebugString
  else logUnknownString.

(** ** Strings *)

(** [strings.Split(s, sep)] for a separator that is not empty: cut at every
    occurrence of [sep], from the left, occurrences not overlapping.
    [skip] bytes of a separator just found are still to pass, [piece] is the
    piece being read. *)
Fixpoint Split_from (sep : string) (skip : nat) (piece s : string) : list string :=
  match s with
  | EmptyString => [piece]
  | String c rest =>
      match skip with
      | S n => Split_from sep n piece rest
      | O =>
          if String.prefix sep s
          then piece :: Split_from sep (String.length sep - 1) "" rest
          else Split_from sep 0 (piece +:+ String c "") rest
      end
  end.

(** With the empty separator Go cuts after every UTF-8 sequence; the model
    cuts after every byte, which is the same for single-byte characters.
    Nothing below is about that case. *)
Definition Split (s sep : string) : list string :=
  match sep with
  | EmptyString => (λ c, String c "") <$> String.list_ascii_of_string s
  | _ => Split_from sep 0 "" s
  end.

(** [strings.LastIndex(s, substr)]: the last position at which [substr]
    starts, -1 when there is none.  [i] is the position of [s] in the whole
    string, [found] the last position seen so far. *)
Fixpoint LastIndex_from (substr s : string) (i found : Z) : Z :=
  let found := if String.prefix substr s then i else found in
  match s with
  | EmptyString => found
  | String _ rest => LastIndex_from substr rest (i + 1) found
  end.

Definition LastIndex (s substr : string) : Z := LastIndex_from substr s 0 (-1).

(** [s[pos:]] *)
Fixpoint slice_from (pos : nat) (s : string) : string :=
  match pos, s with
  | S n, String _ rest => slice_from n rest
  | _, _ => s
  end.

(** [%d] of an [int]. *)
Definition itoa (z : Z) : string := NilZero.string_of_int (Z.to_int z).

(** [type jsonLogRow]; [Event] is nil when the row has no event. *)
Record jsonLogRow := mkJsonLogRow {
  Timestamp : string;
  FileName : string;
  LineNumber : Z;
  MethodName : string;
  Message : string;
  Event : log_event;
  Severity : string
}.

Section logger.
(** What the platform and the libraries give: [os.PathSeparator],
    [fmt.Sprintf] on a format and its arguments, [json.Marshal] on an event
    and on a row (nothing when it returns an error). *)
Variable PathSeparator : Ascii.ascii.
Variable Sprintf : string → list iface → string.
Variable Marshal_event : log_event → option string.

Variable Marshal_row : jsonLogRow → option string.

Definition buildFilename (in_ sep : string) : string * bool :=
  let fls := Split in_ sep in
  if decide (0 < length fls)%nat then
    if decide (1 < length fls)%nat then
      (fls !!! (length fls - 2)%nat +:+ String PathSeparator "" +:+ fls !!! (length fls - 1)%nat,
       true)
    else (in_, false)
  else (in_, false).

(** [getCallerStack], given what the runtime has for the caller: nothing
    ([f == nil]), or the file and line of [f.FileLine] and the name
    [f.Name()]. *)
Definition getCallerStack (f : option (string * Z * string)) : Z * string * string :=
  match f with
  | None => (0, "", "")
  | Some (fileName, lineNumber, name) =>
      let '(fileName, ok) := buildFilename fileName "/" in
      let fileName := if ok then fileName else (buildFilename fileName "\").1 in
      let methodName := name in
      let pos := LastIndex methodName "/" in
      let methodName :=
        if decide (0 <= pos) then
          let pos := if decide (pos + 1 < Z.of_nat (String.length methodName))
                     then pos + 1 else pos in
          slice_from (Z.to_nat pos) methodName
        else methodName in
      (lineNumber, fileName, methodName)
  end.

(** [logWithSeverity]; [timestamp] is what [getTimestamp()] returns during
    the call and [f] what the runtime has for the caller. *)
Definition logWithSeverity (timestamp : string) (f : option (string * Z * string))
    (severity : Z) (event : log_event) (format : string) (a : list iface)
    (p : process) : process :=
  let '(lineNumber, fileName, methodName) := getCallerStack f in
  let formattedString := Sprintf format a in
  if decide (severity <= CurrentLogSeverity (settings p)) then
    if decide (CurrentLogFormat (settings p) = LogTextFormat) then
      let wholeRow :=
        "[" +:+ timestamp +:+ "][" +:+ severityToString severity +:+ "]["
            +:+ fileName +:+ "][" +:+ itoa lineNumber +:+ "] " +:+ formattedString in
      Println wholeRow p
    else
      let event_field :=
        if not_nil event then
          if StringifyEventFlag (settings p) then
            match Marshal_event event with
            | Some e => ev (string_iface e)
            | None => ev nil_iface
            end
          else event
        else ev nil_iface in
      let jsonRow :=
        mkJsonLogRow timestamp fileName lineNumber methodName formattedString
                     event_field (severityToString severity) in
      match Marshal_row jsonRow with
      | Some bv => Println bv p
      | None => p
      end
  else p.

Definition Fatal ts f (format : string) (a : list iface) (p : process) : process :=
  Exit 255 (logWithSeverity ts f LogFatal (ev nil_iface) format a p).
Definition Error ts f (format : string) (a : list iface) (p : process) : process :=
  logWithSeverity ts f LogError (ev nil_iface) format a p.
Definition Info ts f (format : string) (a : list iface) (p : process) : process :=
  logWithSeverity ts f LogInfo (ev nil_iface) format a p.
Definition Warning ts f (format : string) (a : list iface) (p : process) : process :=
  logWithSeverity ts f LogWarning (ev nil_iface) format a p.
Definition Debug ts f (format : string) (a : list iface) (p : process) : process :=
  logWithSeverity ts f LogDebug (ev nil_iface) format a p.

Definition FatalEvenId ts f (eventId : string) (event : iface) (format : string)
    (a : list iface) (p : process) : process :=
  Exit 255 (logWithSeverity ts f LogFatal (eventToEventId eventId event) format a p).
Definition ErrorEventId ts f (eventId : string) (event : iface) (format : string)
    (a : list iface) (p : process) : process :=
  logWithSeverity ts f LogError (eventToEventId eventId event) format a p.
Definition InfoEventId ts f (eventId : string) (event : iface) (format : string)
    (a : list iface) (p : process) : process :=
  logWithSeverity ts f LogInfo (eventToEventId eventId event) format a p.
Definition WarningEventId ts f (eventId : string) (event : iface) (format : string)
    (a : list iface) (p : process) : process :=
  logWithSeverity ts f LogWarning (eventToEventId eventId event) format a p.
Definition DebugEventId ts f (eventId : string) (event : iface) (format : string)
    (a : list iface) (p : process) : process :=
  logWithSeverity ts f LogDebug (eventToEventId eventId event) format a p.

Definition FatalEvent ts f (event : log_event) (format : string) (a : list iface)
    (p : process) : process :=
  Exit 255 (logWithSeverity ts f LogFatal event format a p).
Definition ErrorEvent ts f (event : log_event) (format : string) (a : list iface)
    (p : process) : process :=
  logWithSeverity ts f LogError event format a p.
Definition InfoEvent ts f (event : log_event) (format : string) (a : list iface)
    (p : process) : process :=
  logWithSeverity ts f LogInfo event format a p.
Definition WarningEvent ts f (event : log_event) (format : string) (a : list iface)
    (p : process) : process :=
  logWithSeverity ts f LogWarning event format a p.
Definition DebugEvent ts f (event : log_event) (format : string) (a : list iface)
    (p : process) : process :=
  logWithSeverity ts f LogDebug event format a p.
End logger.

(** The bytes "/" and "\". *)
Definition slash : Ascii.ascii := Ascii.ascii_of_nat 47.
Definition backslash : Ascii.ascii := Ascii.ascii_of_nat 92.

(** Values for what the platform and the libraries give, for evaluation: the
    path separator of Unix, a [Sprintf] that returns its format, an encoder
    of events that fails on maps, an encoder of rows that fails on an empty
    message. *)
Definition plain_Sprintf : string → list iface → string := λ format _, format.

Definition picky_Marshal_event : log_event → option string :=
  λ event, match event with ev _ => Some "value" | ev_map _ => None end.

Definition picky_Marshal_row : jsonLogRow → option string :=
  λ row, match Message row with EmptyString => None | _ => Some (Message row) end.

(** * Proofs *)

(** ** The router *)

Lemma uint32_range z : 0 ≤ uint32 z < 2 ^ 32.
Proof. unfold uint32. apply Z.mod_pos_bound. lia. Qed.

Lemma lxor_range a b : 0 ≤ a < 2 ^ 32 → 0 ≤ b < 2 ^ 32 → 0 ≤ Z.lxor a b < 2 ^ 32.
Proof.
  intros [Ha Ha'] [Hb Hb']. split; [by apply Z.lxor_nonneg|].
  destruct (decide (Z.lxor a b = 0)) as [->|Hne]; [done|].
  assert (0 ≤ Z.lxor a b) by (by apply Z.lxor_nonneg).
  apply Z.log2_lt_pow2; [lia|].
  eapply Z.le_lt_trans; [by apply Z.log2_lxor|].
  assert (∀ x, 0 ≤ x < 2 ^ 32 → Z.log2 x < 32) as Hlog.
  { intros x [Hx Hx']. destruct (decide (x = 0)) as [->|]; [done|].
    apply Z.log2_lt_pow2; lia. }
  apply Z.max_lub_lt; apply Hlog; lia.
Qed.

Lemma byte_range c : 0 ≤ Z.of_N (Ascii.N_of_ascii c) < 256.
Proof. pose proof (Ascii.N_ascii_bounded c). lia. Qed.

Lemma fnv32_loop_range key hash :
  0 ≤ hash < 2 ^ 32 → 0 ≤ fnv32_loop key hash < 2 ^ 32.
Proof.
  revert hash. induction key as [|c rest IH]; intros hash Hh; simpl; [done|].
  apply IH, lxor_range; apply uint32_range.
Qed.

Lemma fnv32_range key : 0 ≤ fnv32 key < 2 ^ 32.
Proof. apply fnv32_loop_range, uint32_range. Qed.

Lemma fnv32_loop_route key hash :
  0 ≤ hash < 2 ^ 32 →
  fnv32_loop key hash = foldl route_step hash (bytes_of key).
Proof.
  revert hash. induction key as [|c rest IH]; intros hash Hh; [done|].
  cbn [fnv32_loop bytes_of String.list_ascii_of_string fmap list_fmap foldl].
  assert (Hstep : Z.lxor (uint32 (hash * prime32))
                    (uint32 (Z.of_N (Ascii.N_of_ascii c)))
                  = route_step hash (Z.of_N (Ascii.N_of_ascii c))).
  { unfold route_step, uint32, prime32.
    pose proof (byte_range c) as Hc.
    rewrite (Z.mod_small (Z.of_N _)) by lia.
    symmetry. apply Z.mod_small, lxor_range; [|lia].
    apply Z.mod_pos_bound. lia. }
  rewrite Hstep. apply IH.
  rewrite <- Hstep. apply lxor_range; apply uint32_range.
Qed.

Lemma fnv32_route_hash key : fnv32 key = route_hash key.
Proof.
  unfold fnv32, route_hash. rewrite fnv32_loop_route by apply uint32_range.
  done.
Qed.

(** The hash on small keys: the empty key gives the seed; for "a" the seed is
    multiplied first and the byte XORed in after. *)
Example fnv32_empty : fnv32 "" = 2166136261.
Proof. reflexivity. Qed.

Example fnv32_a : fnv32 "a" = 84696446.
Proof. reflexivity. Qed.

Example shard_index_scenarios :
  (shard_index "a", shard_index "b", shard_index "c", shard_index "x")
  = (30, 29, 28, 7)%nat.
Proof. reflexivity. Qed.

Lemma shard_index_lt key : (shard_index key < Z.to_nat totalShardCount)%nat.
Proof.
  unfold shard_index, totalShardCount.
  pose proof (Z.mod_pos_bound (fnv32 key) 32). lia.
Qed.

(** ** Single steps *)

Section steps.
Context (m : ConcurrentMap) (i : nat) (sh : ConcurrentMapShared).
Hypothesis Hi : m !! i = Some sh.

Lemma here sh' : <[i := sh']> m !! i = Some sh'.
Proof. apply list_lookup_insert_eq. by eapply lookup_lt_Some. Qed.

Lemma Lock_run :
  mu sh = unlocked →
  Lock i m = Returned tt (<[i := mkShard (items sh) (mkRWMutex true 0)]> m).
Proof. intros Hmu. unfold Lock, on_shard. by rewrite Hi, Hmu. Qed.

Lemma Lock_blocked :
  writer (mu sh) = true → Lock i m = Blocked m.
Proof. intros Hmu. unfold Lock, on_shard. by rewrite Hi, Hmu. Qed.

Lemma Unlock_run :
  mu sh = mkRWMutex true 0 →
  Unlock i m = Returned tt (<[i := mkShard (items sh) unlocked]> m).
Proof. intros Hmu. unfold Unlock. by rewrite Hi, Hmu. Qed.

Lemma RLock_run :
  mu sh = unlocked →
  RLock i m = Returned tt (<[i := mkShard (items sh) (mkRWMutex false 1)]> m).
Proof. intros Hmu. unfold RLock, on_shard. by rewrite Hi, Hmu. Qed.

Lemma RUnlock_run :
  mu sh = mkRWMutex false 1 →
  RUnlock i m = Returned tt (<[i := mkShard (items sh) unlocked]> m).
Proof. intros Hmu. unfold RUnlock. by rewrite Hi, Hmu. Qed.

Lemma load_run key :
  load i key m =
    Returned (default nil_iface (items sh !! key), bool_decide (is_Some (items sh !! key)))
             (<[i := sh]> m).
Proof. unfold load, on_shard. rewrite Hi. by destruct (items sh !! key). Qed.

Lemma store_run key value :
  store i key value m =
    Returned tt (<[i := mkShard (<[key := value]> (items sh)) (mu sh)]> m).
Proof. unfold store, on_shard. by rewrite Hi. Qed.

Lemma delete_key_run key :
  delete_key i key m =
    Returned tt (<[i := mkShard (delete key (items sh)) (mu sh)]> m).
Proof. unfold delete_key, on_shard. by rewrite Hi. Qed.

Lemma len_items_run :
  len_items i m = Returned (size (items sh)) (<[i := sh]> m).
Proof. unfold len_items, on_shard. by rewrite Hi. Qed.
End steps.

Lemma shard_present m key :
  sized m → is_Some (m !! shard_index key).
Proof.
  intros Hm. apply lookup_lt_is_Some_2. rewrite Hm. apply shard_index_lt.
Qed.

Lemma quiescent_lookup m i sh : quiescent m → m !! i = Some sh → mu sh = unlocked.
Proof. intros Hq Hi. by eapply Forall_lookup_1 in Hq. Qed.

Lemma index_run m i : (i < length m)%nat → index i m = Returned i m.
Proof. intros Hi. unfold index. by rewrite decide_True. Qed.

Lemma GetShard_run m key :
  sized m → GetShard key m = Returned (shard_index key) m.
Proof.
  intros Hm. apply index_run. rewrite Hm. apply shard_index_lt.
Qed.

Ltac unfold_bind := unfold mbind, M_bind, mret, M_ret, bind, ret.

Ltac step :=
  cbn [fst snd];
  first
    [ erewrite Lock_run by eauto using here
    | erewrite Unlock_run by eauto using here
    | erewrite RLock_run by eauto using here
    | erewrite RUnlock_run by eauto using here
    | erewrite load_run by eauto using here
    | erewrite store_run by eauto using here
    | erewrite delete_key_run by eauto using here
    | erewrite len_items_run by eauto using here ];
  cbn [items mu fst snd]; rewrite ?list_insert_insert_eq.

(** ** Whole calls

    What each operation returns and the state it leaves, when the shard of
    the key is there and its lock is free. *)

Section runs.
Context (m : ConcurrentMap) (key : string) (sh : ConcurrentMapShared).
Hypothesis Hm : sized m.
Hypothesis Hi : m !! shard_index key = Some sh.
Hypothesis Hmu : mu sh = unlocked.

Lemma unlocked_id : <[shard_index key := mkShard (items sh) unlocked]> m = m.
Proof. apply list_insert_id. rewrite Hi, <- Hmu. by destruct sh. Qed.

Lemma Set_run value :
  Set_ key value m =
    Returned tt (<[shard_index key := mkShard (<[key := value]> (items sh)) unlocked]> m).
Proof.
  unfold Set_; unfold_bind. rewrite GetShard_run by done.
  do 3 step. done.
Qed.

Lemma Get_run :
  Get key m =
    Returned (default nil_iface (items sh !! key), bool_decide (is_Some (items sh !! key))) m.
Proof.
  unfold Get; unfold_bind. rewrite GetShard_run by done.
  do 3 step. by rewrite unlocked_id.
Qed.

Lemma Has_run :
  Has key m = Returned (bool_decide (is_Some (items sh !! key))) m.
Proof.
  unfold Has; unfold_bind. rewrite GetShard_run by done.
  do 3 step. by rewrite unlocked_id.
Qed.

Lemma SetIfAbsent_run value :
  SetIfAbsent key value m =
    match items sh !! key with
    | Some _ => Returned false m
    | None =>
        Returned true
          (<[shard_index key := mkShard (<[key := value]> (items sh)) unlocked]> m)
    end.
Proof.
  unfold SetIfAbsent; unfold_bind. rewrite GetShard_run by done.
  do 2 step. destruct (items sh !! key) as [v|] eqn:Hk; cbn.
  - step. by rewrite unlocked_id.
  - by do 2 step.
Qed.

Lemma Remove_run :
  Remove key m =
    Returned tt (<[shard_index key := mkShard (delete key (items sh)) unlocked]> m).
Proof.
  unfold Remove; unfold_bind. rewrite GetShard_run by done.
  by do 3 step.
Qed.

Lemma Pop_run :
  Pop key m =
    Returned (default nil_iface (items sh !! key), bool_decide (is_Some (items sh !! key)))
      (<[shard_index key := mkShard (delete key (items sh)) unlocked]> m).
Proof.
  unfold Pop; unfold_bind. rewrite GetShard_run by done.
  by do 4 step.
Qed.

Lemma UpdateOrInsert_run {C} value (cb : UpdateOrInsertCb C) (e : C) :
  UpdateOrInsert key value cb (m, e) =
    let v := default nil_iface (items sh !! key) in
    let ok := bool_decide (is_Some (items sh !! key)) in
    match cb ok v value e with
    | (cb_return res, e') =>
        Returned res
          (<[shard_index key := mkShard (<[key := res]> (items sh)) unlocked]> m, e')
    | (cb_panic p, e') =>
        Panicked p
          (<[shard_index key := mkShard (items sh) (mkRWMutex true 0)]> m, e')
    end.
Proof.
  unfold UpdateOrInsert, on_map, call; unfold_bind. cbn [fst snd].
  rewrite GetShard_run by done. do 2 step.
  destruct (cb _ _ _ _) as [[res|p] e']; cbn [fst snd]; [|done].
  by do 2 step.
Qed.
End runs.

(** ** Counting *)

Lemma Count_loop_run m todo : ∀ i count,
  quiescent m → (i + todo ≤ length m)%nat →
  Count_loop todo i count m =
    Returned (count + sum_list (take todo (drop i (sizes m))))%nat m.
Proof.
  induction todo as [|todo IH]; intros i count Hq Hlen.
  - cbn. unfold_bind. by rewrite Nat.add_0_r.
  - destruct (lookup_lt_is_Some_2 m i) as [sh Hi]; [lia|].
    pose proof (quiescent_lookup _ _ _ Hq Hi) as Hmu.
    cbn [Count_loop]; unfold_bind. rewrite index_run by lia.
    do 3 step. rewrite list_insert_id by (rewrite Hi, <- Hmu; by destruct sh).
    rewrite IH by (done || lia).
    assert (sizes m !! i = Some (size (items sh))) as Hs.
    { unfold sizes. by rewrite list_lookup_fmap, Hi. }
    rewrite (drop_S _ _ _ Hs). cbn. f_equal. lia.
Qed.

Lemma Count_run m :
  sized m → quiescent m → Count m = Returned (sum_list (sizes m)) m.
Proof.
  intros Hm Hq. unfold Count. rewrite Count_loop_run by (done || rewrite Hm; lia).
  rewrite drop_0, take_ge; [done|]. unfold sizes. rewrite length_fmap, Hm. lia.
Qed.

(** ** The fan-in *)

Section fan_in.
Context {T : Type} (cap : nat).
Implicit Types (p q : pipeline T) (ps : list (list T)).

Lemma concat_insert_head ps i (t : T) rest :
  ps !! i = Some (t :: rest) → concat ps ≡ₚ t :: concat (<[i := rest]> ps).
Proof.
  intros Hi. rewrite insert_take_drop by (by eapply lookup_lt_Some).
  rewrite <- (take_drop_middle ps i (t :: rest)) at 1 by done.
  rewrite !concat_app. cbn. by rewrite <- Permutation_middle.
Qed.

Lemma comm_in_flight p q : comm cap p q → in_flight q ≡ₚ in_flight p.
Proof.
  unfold in_flight. destruct 1 as [i t rest ps buf rcv Hi _|i t rest ps rcv Hi|t ps buf rcv]; cbn.
  - rewrite (concat_insert_head ps i t rest Hi). by rewrite <- app_assoc.
  - rewrite (concat_insert_head ps i t rest Hi). by rewrite <- app_assoc.
  - by rewrite <- app_assoc.
Qed.

Lemma run_in_flight p q : rtc (comm cap) p q → in_flight q ≡ₚ in_flight p.
Proof.
  induction 1 as [|p q r Hpq _ IH]; [done|].
  by rewrite IH, (comm_in_flight p q).
Qed.

Lemma concat_drained (ps : list (list T)) : Forall (λ ch, ch = []) ps → concat ps = [].
Proof. induction 1 as [|ch ps' -> _ IH]; done. Qed.

(** Whatever the schedule, the consumer gets the items of the sources,
    each as often as it was sent. *)
Lemma fan_permutation (sources : list (list T)) output :
  fan cap sources output → output ≡ₚ concat sources.
Proof.
  intros (p & Hrun & [Hdone Hbuf] & <-).
  apply run_in_flight in Hrun. unfold in_flight in Hrun. cbn in Hrun.
  by rewrite Hbuf, (concat_drained _ Hdone), !app_nil_r in Hrun.
Qed.

Lemma drain_one (ch : list T) : ∀ pre post rcv,
  rtc (comm cap) (mkPipeline (pre ++ ch :: post) [] rcv)
                 (mkPipeline (pre ++ [] :: post) [] (rcv ++ ch)).
Proof.
  induction ch as [|t rest IH]; intros pre post rcv.
  - by rewrite app_nil_r.
  - eapply rtc_l.
    + apply (comm_handoff cap (length pre) t rest). by rewrite list_lookup_middle.
    + replace (<[length pre := rest]> (pre ++ (t :: rest) :: post))
        with (pre ++ rest :: post).
      * replace (rcv ++ t :: rest) with ((rcv ++ [t]) ++ rest) by (by rewrite <- app_assoc).
        apply IH.
      * rewrite <- (Nat.add_0_r (length pre)) at 1. by rewrite insert_app_r.
Qed.

Lemma drain_all (post : list (list T)) : ∀ pre rcv,
  rtc (comm cap) (mkPipeline (pre ++ post) [] rcv)
                 (mkPipeline (pre ++ replicate (length post) []) [] (rcv ++ concat post)).
Proof.
  induction post as [|ch post IH]; intros pre rcv.
  - cbn. by rewrite !app_nil_r.
  - etrans; [apply drain_one|].
    rewrite (cons_middle [] pre post), app_assoc.
    etrans; [apply IH|]. cbn. by rewrite <- !app_assoc.
Qed.

(** The goroutines running one after the other is one of the schedules:
    the fan-in always has a complete run. *)
Lemma fan_in_turn_run (sources : list (list T)) : fan cap sources (fan_in_turn sources).
Proof.
  exists (mkPipeline (replicate (length sources) []) [] (concat sources)).
  split; [apply (drain_all sources [] [])|]. split; [|done].
  split; [|done]. cbn. apply Forall_replicate. done.
Qed.
End fan_in.

(** ** States the proofs start from *)

Lemma NewConcurrentMap_sized : sized NewConcurrentMap.
Proof. done. Qed.

Lemma NewConcurrentMap_quiescent : quiescent NewConcurrentMap.
Proof. by apply Forall_replicate. Qed.

Lemma sized_insert m i sh : sized m → sized (<[i := sh]> m).
Proof. unfold sized. by rewrite length_insert. Qed.

Lemma quiescent_insert m i sh :
  quiescent m → mu sh = unlocked → quiescent (<[i := sh]> m).
Proof. intros Hq Hmu. by apply Forall_insert. Qed.

(** The shard of a key, with its lock free, in a state no call is running in. *)
Lemma shard_ready m key :
  sized m → quiescent m →
  ∃ sh, m !! shard_index key = Some sh ∧ mu sh = unlocked.
Proof.
  intros Hm Hq. destruct (shard_present m key Hm) as [sh Hi].
  exists sh. eauto using quiescent_lookup.
Qed.

Create HintDb cmap.
#[local] Hint Resolve sized_insert quiescent_insert here : cmap.

(** ** Reading after writing *)

(** C1. In every state of the map in which no call is in progress, [Set(k, v)]
    returns, and afterwards [Get(k)] returns [(v, true)] and [Has(k)] returns
    [true]; both leave the map as [Set] left it. *)
Theorem Set_Get_round_trip m k v :
  sized m → quiescent m →
  ∃ m', Set_ k v m = Returned tt m' ∧
        Get k m' = Returned (v, true) m' ∧
        Has k m' = Returned true m'.
Proof.
  intros Hm Hq. destruct (shard_ready m k Hm Hq) as (sh & Hi & Hmu).
  eexists. split; [by apply Set_run|].
  split.
  - erewrite Get_run; eauto with cmap. cbn. by rewrite lookup_insert_eq.
  - erewrite Has_run; eauto with cmap. cbn. by rewrite lookup_insert_eq.
Qed.

Lemma Set_Get_round_trip_witness :
  ∃ m', Set_ "a" (int_iface 1) NewConcurrentMap = Returned tt m' ∧
        Get "a" m' = Returned (int_iface 1, true) m' ∧
        Has "a" m' = Returned true m'.
Proof.
  apply (Set_Get_round_trip NewConcurrentMap "a" (int_iface 1));
    [reflexivity | apply Forall_replicate; reflexivity].
Defined.

(** ** Routing *)

(** C4. On every call, in whatever state of the map, [GetShard] selects for
    [k] the index [h(k) mod 32], where [h] is the hash of the specification
    (seed 2166136261; per byte, multiply by 16777619, then XOR the byte;
    modulo 2^32); the index is in [0, 32). *)
Theorem GetShard_route k m1 m2 :
  sized m1 → sized m2 →
  ∃ i, GetShard k m1 = Returned i m1 ∧
       GetShard k m2 = Returned i m2 ∧
       fnv32 k = route_hash k ∧
       Z.of_nat i = route k totalShardCount ∧
       0 ≤ Z.of_nat i < totalShardCount.
Proof.
  intros H1 H2. exists (shard_index k).
  rewrite !GetShard_run by done. repeat split; try done.
  - apply fnv32_route_hash.
  - unfold shard_index, route. rewrite <- fnv32_route_hash.
    rewrite Z2Nat.id; [done|]. by apply Z.mod_pos_bound.
  - lia.
  - pose proof (shard_index_lt k). unfold totalShardCount in *. lia.
Qed.

Lemma GetShard_route_witness :
  ∃ i, GetShard "a" NewConcurrentMap = Returned i NewConcurrentMap ∧
       GetShard "a" (final (Set_ "b" (int_iface 2) NewConcurrentMap))
         = Returned i (final (Set_ "b" (int_iface 2) NewConcurrentMap)) ∧
       fnv32 "a" = route_hash "a" ∧
       Z.of_nat i = route "a" totalShardCount ∧
       0 ≤ Z.of_nat i < totalShardCount.
Proof.
  apply (GetShard_route "a" NewConcurrentMap
           (final (Set_ "b" (int_iface 2) NewConcurrentMap))); reflexivity.
Defined.

(** ** Keys other than the one a call is about *)

(** Replacing the items of the shard of [k] by items that agree on [k'] does
    not change what [Get(k')] returns. *)
Lemma Get_other m k k' sh its r :
  sized m → quiescent m → m !! shard_index k = Some sh →
  its !! k' = items sh !! k' →
  Get k' m = Returned r m →
  Get k' (<[shard_index k := mkShard its unlocked]> m)
    = Returned r (<[shard_index k := mkShard its unlocked]> m).
Proof.
  intros Hm Hq Hi Hits Hget.
  destruct (shard_ready m k' Hm Hq) as (sh' & Hi' & Hmu').
  erewrite Get_run in Hget by eauto. injection Hget as <-.
  destruct (decide (shard_index k' = shard_index k)) as [Heq|Hne].
  - rewrite Heq in Hi'. simplify_eq.
    erewrite Get_run; [|eauto with cmap|rewrite Heq; eauto with cmap|done].
    cbn. by rewrite Hits.
  - erewrite Get_run; eauto with cmap. by rewrite list_lookup_insert_ne.
Qed.

(** What [Get] and [Has] return is what the shard of the key holds. *)
Lemma Has_false_absent m k sh :
  sized m → m !! shard_index k = Some sh → mu sh = unlocked →
  Has k m = Returned false m → items sh !! k = None.
Proof.
  intros Hm Hi Hmu Hhas. erewrite Has_run in Hhas by eauto.
  injection Hhas as Hhas. apply bool_decide_eq_false in Hhas.
  by apply eq_None_not_Some.
Qed.

(** ** Insertion of absent keys only *)

(** C6. When [k] is absent, [SetIfAbsent(k, v1)] returns [true] and installs
    [v1]; a second [SetIfAbsent(k, v2)] returns [false] and leaves the map as
    it is, so that [Get(k)] returns [(v1, true)] before and after it. *)
Theorem SetIfAbsent_first_wins m k v1 v2 :
  sized m → quiescent m → Has k m = Returned false m →
  ∃ m1, SetIfAbsent k v1 m = Returned true m1 ∧
        Get k m1 = Returned (v1, true) m1 ∧
        SetIfAbsent k v2 m1 = Returned false m1.
Proof.
  intros Hm Hq Hhas. destruct (shard_ready m k Hm Hq) as (sh & Hi & Hmu).
  pose proof (Has_false_absent m k sh Hm Hi Hmu Hhas) as Hk.
  eexists. split; [|split].
  - erewrite SetIfAbsent_run by eauto. by rewrite Hk.
  - erewrite Get_run; eauto with cmap. cbn. by rewrite lookup_insert_eq.
  - erewrite SetIfAbsent_run; eauto with cmap. cbn. by rewrite lookup_insert_eq.
Qed.

Lemma SetIfAbsent_first_wins_witness :
  ∃ m1, SetIfAbsent "x" (int_iface 1) NewConcurrentMap = Returned true m1 ∧
        Get "x" m1 = Returned (int_iface 1, true) m1 ∧
        SetIfAbsent "x" (int_iface 2) m1 = Returned false m1.
Proof.
  apply (SetIfAbsent_first_wins NewConcurrentMap "x" (int_iface 1) (int_iface 2));
    [reflexivity | apply Forall_replicate; reflexivity | reflexivity].
Defined.

(** ** Deletion *)

(** C7. [Remove(k)] and [Pop(k)] end in the same state, in which [k] is
    absent: [Has(k)] is [false] and [Get(k)] finds nothing.  [Pop(k)] returns
    what [Get(k)] returned before: the stored value and [true], or [false]
    when there was none.  What [Get] returns for any other key is unchanged,
    and when [k] was absent the state is unchanged. *)
Theorem Remove_Pop_delete m k :
  sized m → quiescent m →
  ∃ v existed m',
    Get k m = Returned (v, existed) m ∧
    Remove k m = Returned tt m' ∧
    Pop k m = Returned (v, existed) m' ∧
    Has k m' = Returned false m' ∧
    Get k m' = Returned (nil_iface, false) m' ∧
    (∀ k' r, k' ≠ k → Get k' m = Returned r m → Get k' m' = Returned r m') ∧
    (existed = true ↔ Has k m = Returned true m) ∧
    (existed = false → m' = m).
Proof.
  intros Hm Hq. destruct (shard_ready m k Hm Hq) as (sh & Hi & Hmu).
  do 3 eexists. split; [by apply Get_run|].
  split; [by apply Remove_run|]. split; [by apply Pop_run|].
  split; [|split; [|split; [|split]]].
  - erewrite Has_run; eauto with cmap. cbn. by rewrite lookup_delete_eq.
  - erewrite Get_run; eauto with cmap. cbn. by rewrite lookup_delete_eq.
  - intros k' r Hne Hget. eapply Get_other; eauto. cbn. by rewrite lookup_delete_ne.
  - erewrite Has_run by eauto. split; [by intros ->|by intros [= ->]].
  - intros Habs. apply bool_decide_eq_false in Habs.
    rewrite delete_id by (by apply eq_None_not_Some).
    by apply unlocked_id.
Qed.

Lemma Remove_Pop_delete_witness :
  ∃ v existed m',
    Get "a" (final (Set_ "a" (int_iface 1) NewConcurrentMap))
      = Returned (v, existed) (final (Set_ "a" (int_iface 1) NewConcurrentMap)) ∧
    Remove "a" (final (Set_ "a" (int_iface 1) NewConcurrentMap)) = Returned tt m' ∧
    Pop "a" (final (Set_ "a" (int_iface 1) NewConcurrentMap)) = Returned (v, existed) m' ∧
    Has "a" m' = Returned false m' ∧
    Get "a" m' = Returned (nil_iface, false) m' ∧
    (∀ k' r, k' ≠ "a" →
       Get k' (final (Set_ "a" (int_iface 1) NewConcurrentMap))
         = Returned r (final (Set_ "a" (int_iface 1) NewConcurrentMap)) →
       Get k' m' = Returned r m') ∧
    (existed = true ↔
       Has "a" (final (Set_ "a" (int_iface 1) NewConcurrentMap))
         = Returned true (final (Set_ "a" (int_iface 1) NewConcurrentMap))) ∧
    (existed = false → m' = final (Set_ "a" (int_iface 1) NewConcurrentMap)).
Proof.
  apply (Remove_Pop_delete (final (Set_ "a" (int_iface 1) NewConcurrentMap)) "a");
    [reflexivity | vm_compute; repeat constructor].
Defined.

(** ** The combinator *)

(** C2. [UpdateOrInsert(k, v, cb)] passes to [cb] the pair that [Get(k)]
    returns (swapped: existed, then current) and [v]; when [cb] returns, the
    call returns [cb]'s result, the caller's environment is the one a single
    run of [cb] leaves, [Get(k)] returns the result, and other keys are as
    before.  With a combinator that logs its calls the log gains exactly one
    entry.  On a new map, with the combinator
    [existed ? current + candidate : candidate], candidate 5 gives 5 and then
    candidate 3 gives 8. *)
Theorem UpdateOrInsert_combines :
  (∀ C m k v (cb : UpdateOrInsertCb C) e current existed res e',
     sized m → quiescent m →
     Get k m = Returned (current, existed) m →
     cb existed current v e = (cb_return res, e') →
     ∃ m', UpdateOrInsert k v cb (m, e) = Returned res (m', e') ∧
           Get k m' = Returned (res, true) m' ∧
           (∀ k' r, k' ≠ k → Get k' m = Returned r m → Get k' m' = Returned r m')) ∧
  (∀ m k v f log current existed,
     sized m → quiescent m →
     Get k m = Returned (current, existed) m →
     ∃ m', UpdateOrInsert k v (recording f) (m, log)
           = Returned (f existed current v) (m', log ++ [(existed, current, v)])) ∧
  (∃ m1 m2,
     UpdateOrInsert "c" (int_iface 5) sum_cb (NewConcurrentMap, tt)
       = Returned (int_iface 5) (m1, tt) ∧
     UpdateOrInsert "c" (int_iface 3) sum_cb (m1, tt)
       = Returned (int_iface 8) (m2, tt)).
Proof.
  split; [|split].
  - intros C m k v cb e current existed res e' Hm Hq Hget Hcb.
    destruct (shard_ready m k Hm Hq) as (sh & Hi & Hmu).
    erewrite Get_run in Hget by eauto. injection Hget as <- <-.
    eexists. split; [|split].
    + erewrite UpdateOrInsert_run by eauto. cbn zeta. by rewrite Hcb.
    + erewrite Get_run; eauto with cmap. cbn. by rewrite lookup_insert_eq.
    + intros k' r Hne Hget. eapply Get_other; eauto. cbn. by rewrite lookup_insert_ne.
  - intros m k v f log current existed Hm Hq Hget.
    destruct (shard_ready m k Hm Hq) as (sh & Hi & Hmu).
    erewrite Get_run in Hget by eauto. injection Hget as <- <-.
    eexists. by erewrite UpdateOrInsert_run by eauto.
  - do 2 eexists. split; reflexivity.
Qed.

Lemma UpdateOrInsert_combines_witness :
  ∃ m', UpdateOrInsert "c" (int_iface 5) sum_cb (NewConcurrentMap, tt)
          = Returned (int_iface 5) (m', tt) ∧
        Get "c" m' = Returned (int_iface 5, true) m' ∧
        (∀ k' r, k' ≠ "c" →
           Get k' NewConcurrentMap = Returned r NewConcurrentMap →
           Get k' m' = Returned r m').
Proof.
  apply (proj1 UpdateOrInsert_combines unit NewConcurrentMap "c" (int_iface 5)
           sum_cb tt nil_iface false (int_iface 5) tt);
    [reflexivity | apply Forall_replicate; reflexivity | reflexivity | reflexivity].
Defined.

(** C3, as the code has it.  When the combinator panics, the panic leaves
    [UpdateOrInsert] with the items of every shard as they were and the
    caller's environment as the combinator left it; the write lock of the
    shard of [k] is still held (the locks of the other shards are as before),
    so that later calls for keys of that shard block. *)
Theorem UpdateOrInsert_panic {C} m k v (cb : UpdateOrInsertCb C) e current existed p e' :
  sized m → quiescent m →
  Get k m = Returned (current, existed) m →
  cb existed current v e = (cb_panic p, e') →
  ∃ m', UpdateOrInsert k v cb (m, e) = Panicked p (m', e') ∧
        items <$> m' = items <$> m ∧
        mu <$> m' !! shard_index k = Some (mkRWMutex true 0) ∧
        (∀ i, i ≠ shard_index k → m' !! i = m !! i) ∧
        Get k m' = Blocked m' ∧
        Set_ k v m' = Blocked m'.
Proof.
  intros Hm Hq Hget Hcb. destruct (shard_ready m k Hm Hq) as (sh & Hi & Hmu).
  erewrite Get_run in Hget by eauto. injection Hget as <- <-.
  eexists. split; [|split; [|split; [|split; [|split]]]].
  - erewrite UpdateOrInsert_run by eauto. cbn zeta. by rewrite Hcb.
  - rewrite list_fmap_insert. cbn. apply list_insert_id.
    by rewrite list_lookup_fmap, Hi.
  - by erewrite here by eauto.
  - intros i Hne. by rewrite list_lookup_insert_ne.
  - unfold Get; unfold_bind. rewrite GetShard_run by eauto with cmap.
    unfold RLock, on_shard. by erewrite here by eauto.
  - unfold Set_; unfold_bind. rewrite GetShard_run by eauto with cmap.
    by erewrite Lock_blocked by eauto using here.
Qed.

Lemma UpdateOrInsert_panic_witness :
  ∃ m', UpdateOrInsert "c" (int_iface 5) panicking_cb (NewConcurrentMap, tt)
          = Panicked (string_iface "combinator failed") (m', tt) ∧
        items <$> m' = items <$> NewConcurrentMap ∧
        mu <$> m' !! shard_index "c" = Some (mkRWMutex true 0) ∧
        (∀ i, i ≠ shard_index "c" → m' !! i = NewConcurrentMap !! i) ∧
        Get "c" m' = Blocked m' ∧
        Set_ "c" (int_iface 5) m' = Blocked m'.
Proof.
  apply (UpdateOrInsert_panic NewConcurrentMap "c" (int_iface 5) panicking_cb tt
           nil_iface false (string_iface "combinator failed") tt);
    [reflexivity | apply Forall_replicate; reflexivity | reflexivity | reflexivity].
Defined.

(** C3, as the specification has it, fails: on a new map a panicking
    combinator leaves the lock of the shard of its key held. *)
Lemma UpdateOrInsert_panic_lock_not_released :
  ∃ m', UpdateOrInsert "c" (int_iface 5) panicking_cb (NewConcurrentMap, tt)
          = Panicked (string_iface "combinator failed") (m', tt) ∧
        mu <$> m' !! shard_index "c" = Some (mkRWMutex true 0) ∧
        ¬ quiescent m'.
Proof.
  eexists. split; [reflexivity|]. split; [reflexivity|].
  intros Hq. eapply (Forall_lookup_1 _ _ (shard_index "c")) in Hq; [|reflexivity].
  discriminate Hq.
Qed.

(** ** Absent keys and nil *)

(** C10. For an absent key, [Get] and [Pop] return the nil interface value
    and [false], and [UpdateOrInsert] calls the combinator with [false] and
    nil.  A key stored with the value nil gives the same value, with the flag
    [true]. *)
Theorem absent_key_is_nil m k :
  sized m → quiescent m → Has k m = Returned false m →
  Get k m = Returned (nil_iface, false) m ∧
  Pop k m = Returned (nil_iface, false) m ∧
  (∀ v f log, ∃ m',
     UpdateOrInsert k v (recording f) (m, log)
       = Returned (f false nil_iface v) (m', log ++ [(false, nil_iface, v)])) ∧
  (∃ m1, Set_ k nil_iface m = Returned tt m1 ∧
         Has k m1 = Returned true m1 ∧
         Get k m1 = Returned (nil_iface, true) m1 ∧
         ∃ m2, Pop k m1 = Returned (nil_iface, true) m2).
Proof.
  intros Hm Hq Hhas. destruct (shard_ready m k Hm Hq) as (sh & Hi & Hmu).
  pose proof (Has_false_absent m k sh Hm Hi Hmu Hhas) as Hk.
  split; [|split; [|split]].
  - erewrite Get_run by eauto. by rewrite Hk.
  - erewrite Pop_run by eauto. rewrite Hk, delete_id by done. cbn.
    by rewrite unlocked_id.
  - intros v f log. eexists. erewrite UpdateOrInsert_run by eauto.
    by rewrite Hk.
  - eexists. split; [by apply Set_run|]. split; [|split].
    + erewrite Has_run; eauto with cmap. cbn. by rewrite lookup_insert_eq.
    + erewrite Get_run; eauto with cmap. cbn. by rewrite lookup_insert_eq.
    + eexists. erewrite Pop_run; eauto with cmap. cbn. by rewrite lookup_insert_eq.
Qed.

Lemma absent_key_is_nil_witness :
  Get "k" NewConcurrentMap = Returned (nil_iface, false) NewConcurrentMap ∧
  Pop "k" NewConcurrentMap = Returned (nil_iface, false) NewConcurrentMap ∧
  (∀ v f log, ∃ m',
     UpdateOrInsert "k" v (recording f) (NewConcurrentMap, log)
       = Returned (f false nil_iface v) (m', log ++ [(false, nil_iface, v)])) ∧
  (∃ m1, Set_ "k" nil_iface NewConcurrentMap = Returned tt m1 ∧
         Has "k" m1 = Returned true m1 ∧
         Get "k" m1 = Returned (nil_iface, true) m1 ∧
         ∃ m2, Pop "k" m1 = Returned (nil_iface, true) m2).
Proof.
  apply (absent_key_is_nil NewConcurrentMap "k");
    [reflexivity | apply Forall_replicate; reflexivity | reflexivity].
Defined.

(** ** Calls that maintain an invariant *)

Section maintains.
Context {S : Type} (I : S → Prop).

Lemma maintains_ret {A} (a : A) (Q : A → Prop) :
  Q a → maintains I (mret a) Q.
Proof. by intros Ha s Hs. Qed.

Lemma maintains_bind {A B} (c : M S A) (k : A → M S B) Q R :
  maintains I c Q → (∀ a, Q a → maintains I (k a) R) →
  maintains I (c ≫= k) R.
Proof.
  intros Hc Hk s Hs. specialize (Hc s Hs). unfold_bind.
  destruct (c s) as [a s'|p s'|s']; [|done..].
  destruct Hc as [Hs' Ha]. by apply Hk.
Qed.

Lemma maintains_final {A} (c : M S A) Q s :
  maintains I c Q → I s → I (final (c s)).
Proof.
  intros Hc Hs. specialize (Hc s Hs).
  destruct (c s) as [a s'|p s'|s']; cbn; tauto.
Qed.
End maintains.

Lemma wf_insert m i sh sh' :
  wf m → m !! i = Some sh →
  (∀ k, is_Some (items sh' !! k) → is_Some (items sh !! k) ∨ i = shard_index k) →
  wf (<[i := sh']> m).
Proof.
  intros [Hm Hr] Hi Hkeys. split; [by apply sized_insert|].
  intros j shj k Hj Hk. destruct (decide (i = j)) as [<-|Hne].
  - rewrite list_lookup_insert_eq in Hj by (by eapply lookup_lt_Some).
    simplify_eq. destruct (Hkeys k Hk); eauto.
  - rewrite list_lookup_insert_ne in Hj by done. eauto.
Qed.

Lemma wf_New : wf NewConcurrentMap.
Proof.
  split; [done|]. intros i sh k Hi [v Hk].
  apply lookup_replicate_1 in Hi as [-> _]. cbn in Hk. by rewrite lookup_empty in Hk.
Qed.

Lemma on_shard_wf {A} i (f : ConcurrentMapShared → option (A * ConcurrentMapShared)) :
  (∀ sh a sh' k, f sh = Some (a, sh') →
     is_Some (items sh' !! k) → is_Some (items sh !! k) ∨ i = shard_index k) →
  maintains wf (on_shard i f) (λ _, True).
Proof.
  intros Hf m Hwf. unfold on_shard.
  destruct (m !! i) as [sh|] eqn:Hi; [|done].
  destruct (f sh) as [[a sh']|] eqn:Hfsh; [|done].
  split; [|done]. eapply wf_insert; eauto.
Qed.

Lemma Lock_wf i : maintains wf (Lock i) (λ _, True).
Proof.
  apply on_shard_wf. intros sh a sh' k Hf Hk.
  destruct (_ || _); simplify_eq. by left.
Qed.

Lemma RLock_wf i : maintains wf (RLock i) (λ _, True).
Proof.
  apply on_shard_wf. intros sh a sh' k Hf Hk.
  destruct (writer _); simplify_eq. by left.
Qed.

Lemma Unlock_wf i : maintains wf (Unlock i) (λ _, True).
Proof.
  intros m Hwf. unfold Unlock. destruct (m !! i) as [sh|] eqn:Hi; [|done].
  destruct (writer _); [|done]. split; [|done].
  eapply wf_insert; eauto.
Qed.

Lemma RUnlock_wf i : maintains wf (RUnlock i) (λ _, True).
Proof.
  intros m Hwf. unfold RUnlock. destruct (m !! i) as [sh|] eqn:Hi; [|done].
  destruct (readers _); [done|]. split; [|done].
  eapply wf_insert; eauto.
Qed.

Lemma load_wf i key : maintains wf (load i key) (λ _, True).
Proof.
  apply on_shard_wf. intros sh a sh' k Hf Hk.
  destruct (items sh !! key); simplify_eq; by left.
Qed.

Lemma store_wf key value : maintains wf (store (shard_index key) key value) (λ _, True).
Proof.
  apply on_shard_wf. intros sh a sh' k Hf Hk. simplify_eq. cbn in Hk.
  destruct (decide (key = k)) as [->|Hne]; [by right|].
  rewrite lookup_insert_ne in Hk by done. by left.
Qed.

Lemma delete_key_wf i key : maintains wf (delete_key i key) (λ _, True).
Proof.
  apply on_shard_wf. intros sh a sh' k Hf Hk. simplify_eq. cbn in Hk.
  left. destruct (decide (key = k)) as [->|Hne].
  - rewrite lookup_delete_eq in Hk. by destruct Hk.
  - by rewrite lookup_delete_ne in Hk.
Qed.

Lemma GetShard_wf key : maintains wf (GetShard key) (λ i, i = shard_index key).
Proof. intros m Hwf. unfold GetShard, index. by case_decide. Qed.

Create HintDb wf.
#[local] Hint Resolve Lock_wf RLock_wf Unlock_wf RUnlock_wf load_wf store_wf
  delete_key_wf maintains_ret : wf.

(** Steps through a body: the pointer [GetShard] returns is the router's,
    every later step maintains the invariant by itself. *)
Ltac maintain :=
  repeat first
    [ eapply maintains_bind; [apply GetShard_wf|]; intros ? ->
    | eapply maintains_bind; [solve [eauto with wf]|]; intros [? ?] _
    | eapply maintains_bind; [solve [eauto with wf]|]; intros ? _
    | solve [eauto with wf] ].

Lemma Set_wf key value : maintains wf (Set_ key value) (λ _, True).
Proof. unfold Set_. maintain. Qed.

Lemma MSet_range_wf order : maintains wf (MSet_range order) (λ _, True).
Proof.
  induction order as [|[key value] rest IH]; cbn [MSet_range]; maintain.
Qed.

Lemma SetIfAbsent_wf key value : maintains wf (SetIfAbsent key value) (λ _, True).
Proof.
  unfold SetIfAbsent. maintain.
  eapply maintains_bind; [by destruct (negb _); eauto with wf|]; intros _ _.
  maintain.
Qed.

Lemma Remove_wf key : maintains wf (Remove key) (λ _, True).
Proof. unfold Remove. maintain. Qed.

Lemma Pop_wf key : maintains wf (Pop key) (λ _, True).
Proof. unfold Pop. maintain. Qed.

Lemma on_map_wf {C A} (c : M ConcurrentMap A) Q :
  maintains wf c Q → maintains (λ s : ConcurrentMap * C, wf s.1) (on_map c) Q.
Proof.
  intros Hc [m e] Hwf. specialize (Hc m Hwf). unfold on_map. cbn.
  by destruct (c m).
Qed.

Lemma call_wf {C} (cb : UpdateOrInsertCb C) ok v value :
  maintains (λ s : ConcurrentMap * C, wf s.1) (call cb ok v value) (λ _, True).
Proof.
  intros [m e] Hwf. unfold call. cbn. by destruct (cb _ _ _ _) as [[res|p] e'].
Qed.

Lemma UpdateOrInsert_wf {C} key value (cb : UpdateOrInsertCb C) :
  maintains (λ s : ConcurrentMap * C, wf s.1) (UpdateOrInsert key value cb) (λ _, True).
Proof.
  unfold UpdateOrInsert.
  eapply maintains_bind; [apply on_map_wf, GetShard_wf|]. intros ? ->.
  eapply maintains_bind; [apply on_map_wf, Lock_wf|]. intros _ _.
  eapply maintains_bind; [apply on_map_wf, load_wf|]. intros [v ok] _.
  eapply maintains_bind; [apply call_wf|]. intros res _.
  eapply maintains_bind; [apply on_map_wf, store_wf|]. intros _ _.
  eapply maintains_bind; [apply on_map_wf, Unlock_wf|]. intros _ _.
  by apply maintains_ret.
Qed.

Lemma reachable_wf m : reachable m → wf m.
Proof.
  induction 1 as [|m key value _ IH|m data order _ IH _|m key value _ IH
                  |C m key value cb e _ IH|m key _ IH|m key _ IH].
  - apply wf_New.
  - by eapply maintains_final; [apply Set_wf|].
  - by eapply maintains_final; [apply MSet_range_wf|].
  - by eapply maintains_final; [apply SetIfAbsent_wf|].
  - by eapply (maintains_final (λ s : ConcurrentMap * C, wf s.1));
      [apply UpdateOrInsert_wf|].
  - by eapply maintains_final; [apply Remove_wf|].
  - by eapply maintains_final; [apply Pop_wf|].
Qed.

Lemma routed_apart m : routed m → apart m.
Proof.
  intros Hr i j shi shj k Hi Hj Hki Hkj.
  by rewrite (Hr i shi k Hi Hki), (Hr j shj k Hj Hkj).
Qed.

(** C9. In every state that calls of [Set], [MSet], [SetIfAbsent],
    [UpdateOrInsert], [Remove] and [Pop] lead to from a new map (whether they
    return, panic or block), the map has its 32 shards and a key stored in
    shard [i] has [i] as its index from the router; so no key is in two
    shards. *)
Theorem reachable_routed m :
  reachable m →
  sized m ∧
  (∀ i sh k, m !! i = Some sh → is_Some (items sh !! k) →
     i = shard_index k ∧ GetShard k m = Returned i m) ∧
  (∀ i j shi shj k,
     m !! i = Some shi → m !! j = Some shj →
     is_Some (items shi !! k) → is_Some (items shj !! k) → i = j).
Proof.
  intros [Hm Hr]%reachable_wf. split; [done|]. split.
  - intros i sh k Hi Hk. rewrite GetShard_run by done.
    by rewrite (Hr i sh k Hi Hk).
  - by apply routed_apart.
Qed.

Lemma reachable_routed_witness :
  sized scenario_b ∧
  (∀ i sh k, scenario_b !! i = Some sh → is_Some (items sh !! k) →
     i = shard_index k ∧ GetShard k scenario_b = Returned i scenario_b) ∧
  (∀ i j shi shj k,
     scenario_b !! i = Some shi → scenario_b !! j = Some shj →
     is_Some (items shi !! k) → is_Some (items shj !! k) → i = j).
Proof.
  apply (reachable_routed scenario_b).
  apply reach_Remove, reach_Set, reach_Set, reach_New.
Defined.

(** ** The entries of all shards *)

Lemma elem_of_entries m k v :
  (k, v) ∈ entries m ↔ ∃ i sh, m !! i = Some sh ∧ items sh !! k = Some v.
Proof.
  induction m as [|sh m IH].
  - change (entries []) with (@nil (string * iface)). split; [by intros ?%elem_of_nil|]. intros (i & sh & Hi & _). by rewrite lookup_nil in Hi.
  - change (entries (sh :: m)) with (map_to_list (items sh) ++ entries m).
    rewrite elem_of_app, elem_of_map_to_list, IH. split.
    + intros [Hk|(i & shi & Hi & Hk)]; [by exists 0%nat, sh|by exists (S i), shi].
    + intros ([|i] & shi & Hi & Hk); [left; cbn in Hi; by simplify_eq|right; by exists i, shi].
Qed.

Lemma apart_cons sh m :
  apart (sh :: m) →
  apart m ∧
  ∀ k j shj, is_Some (items sh !! k) → m !! j = Some shj → items shj !! k = None.
Proof.
  intros Ha. split.
  - intros i j shi shj k Hi Hj Hki Hkj.
    by injection (Ha (S i) (S j) shi shj k Hi Hj Hki Hkj).
  - intros k j shj Hk Hj. apply eq_None_not_Some. intros Hkj.
    by specialize (Ha 0%nat (S j) sh shj k eq_refl Hj Hk Hkj).
Qed.

Lemma NoDup_entries m : apart m → NoDup (entries m).*1.
Proof.
  induction m as [|sh m IH]; intros Ha; [constructor|].
  apply apart_cons in Ha as [Ha Hsh].
  change (entries (sh :: m)) with (map_to_list (items sh) ++ entries m).
  rewrite fmap_app. apply NoDup_app. split; [apply NoDup_fst_map_to_list|].
  split; [|by apply IH].
  intros k ([k1 v] & -> & Hin)%list_elem_of_fmap ([k2 w] & Hk & Hin')%list_elem_of_fmap.
  cbn in *. subst k2. apply elem_of_map_to_list in Hin.
  apply elem_of_entries in Hin' as (j & shj & Hj & Hkj).
  rewrite (Hsh k1 j shj) in Hkj; eauto. done.
Qed.

Lemma length_entries m : length (entries m) = sum_list (sizes m).
Proof.
  induction m as [|sh m IH]; [done|].
  change (entries (sh :: m)) with (map_to_list (items sh) ++ entries m).
  rewrite length_app, length_map_to_list, IH. done.
Qed.

Lemma elem_of_keys_present m k :
  k ∈ keys_present m ↔ ∃ i sh, m !! i = Some sh ∧ is_Some (items sh !! k).
Proof.
  unfold keys_present. rewrite elem_of_union_list. split.
  - intros (X & (sh & -> & Hsh)%list_elem_of_fmap & Hk).
    apply list_elem_of_lookup in Hsh as [i Hi]. exists i, sh.
    by rewrite <- elem_of_dom.
  - intros (i & sh & Hi & Hk). exists (dom (items sh)). split.
    + apply list_elem_of_fmap. exists sh. split; [done|].
      apply list_elem_of_lookup. eauto.
    + by apply elem_of_dom.
Qed.

Lemma size_keys_present m : apart m → size (keys_present m) = sum_list (sizes m).
Proof.
  induction m as [|sh m IH]; intros Ha; [done|].
  apply apart_cons in Ha as [Ha Hsh].
  change (keys_present (sh :: m)) with (dom (items sh) ∪ keys_present m).
  rewrite size_union.
  - rewrite size_dom, IH by done. done.
  - apply elem_of_disjoint. intros k Hk%elem_of_dom (j & shj & Hj & Hkj)%elem_of_keys_present.
    rewrite (Hsh k j shj) in Hkj by done. by destruct Hkj.
Qed.

(** In a state no call is running in, what [Get] and [Has] find is what the
    shards hold. *)
Section lookups.
Context (m : ConcurrentMap) (Hm : sized m) (Hq : quiescent m) (Hr : routed m).

Lemma Get_entries k v :
  Get k m = Returned (v, true) m ↔ (k, v) ∈ entries m.
Proof.
  destruct (shard_ready m k Hm Hq) as (sh & Hi & Hmu).
  erewrite Get_run by eauto. rewrite elem_of_entries. split.
  - intros [= Hv Hk]. exists (shard_index k), sh. split; [done|].
    apply bool_decide_eq_true in Hk as [w Hw]. rewrite Hw in Hv. by simplify_eq.
  - intros (i & shi & Hi' & Hk).
    assert (i = shard_index k) as -> by (eapply Hr; eauto).
    simplify_eq. rewrite Hk. cbn. by rewrite ?bool_decide_eq_true_2 by eauto.
Qed.

Lemma Has_keys_present k :
  Has k m = Returned true m ↔ k ∈ keys_present m.
Proof.
  destruct (shard_ready m k Hm Hq) as (sh & Hi & Hmu).
  erewrite Has_run by eauto. rewrite elem_of_keys_present. split.
  - intros [= Hk]. apply bool_decide_eq_true in Hk. eauto.
  - intros (i & shi & Hi' & Hk).
    assert (i = shard_index k) as -> by (eapply Hr; eauto).
    simplify_eq. by rewrite bool_decide_eq_true_2.
Qed.
End lookups.

(** ** Iteration *)

Lemma tuple_of_inj : Inj (=) (=) tuple_of.
Proof. intros [k v] [k' v'] [= ??]. cbn in *. by subst. Qed.

Lemma Key_tuple_of l : Key <$> (tuple_of <$> l) = l.*1.
Proof. rewrite <- list_fmap_compose. by apply list_fmap_ext. Qed.

Lemma concat_Forall2_perm {T} (l k : list (list T)) :
  Forall2 (≡ₚ) l k → concat l ≡ₚ concat k.
Proof. induction 1 as [|x y l k Hxy _ IH]; [done|]. cbn. by rewrite Hxy, IH. Qed.

(** The channels of a snapshot hold the entries of the shards. *)
Lemma snapshot_entries m channels :
  snapshot m channels → concat channels ≡ₚ tuple_of <$> entries m.
Proof.
  intros [_ Hall]. induction Hall as [|sh ch m chs (_ & order & Horder & ->) _ IH]; [done|].
  change (entries (sh :: m)) with (map_to_list (items sh) ++ entries m).
  rewrite fmap_app. cbn. by rewrite IH, Horder.
Qed.

Lemma snapshot_in_turn_run m :
  sized m → quiescent m → snapshot m (snapshot_in_turn m).
Proof.
  intros Hm Hq. split; [done|]. unfold snapshot_in_turn.
  apply Forall2_fmap_r, Forall_Forall2_diag.
  eapply Forall_impl; [exact Hq|]. intros sh Hmu. cbn in Hmu.
  split; [by rewrite Hmu|]. exists (map_to_list (items sh)). by unfold range_order.
Qed.

Lemma Iterator_entries m out :
  Iterator m out ∨ IteratorBuffered m out → out ≡ₚ tuple_of <$> entries m.
Proof.
  intros [(chs & Hsnap & Hfan)|(chs & Hsnap & Hfan)];
    apply fan_permutation in Hfan; by rewrite Hfan, (snapshot_entries m chs).
Qed.

Lemma collect_from out k v : ∀ acc : gmap string iface,
  NoDup (Key <$> out) →
  foldl (λ tmp item, <[Key item := Val item]> tmp) acc out !! k = Some v ↔
    mkTuple k v ∈ out ∨ (acc !! k = Some v ∧ k ∉ Key <$> out).
Proof.
  induction out as [|t rest IH]; intros acc Hnd.
  - cbn. split; [intros Hk; right; split; [done|apply not_elem_of_nil]|].
    by intros [?%elem_of_nil|[? _]].
  - cbn [foldl]. rewrite fmap_cons in Hnd. apply NoDup_cons in Hnd as [Ht Hnd].
    rewrite IH by done. rewrite fmap_cons, not_elem_of_cons, elem_of_cons.
    destruct (decide (Key t = k)) as [<-|Hne].
    + rewrite lookup_insert_eq. split.
      * intros [Hin|[[= <-] _]]; [by left; right|]. left; left. by destruct t.
      * intros [[Heq|Hin]|[_ [Hk _]]]; [|by left|done].
        right. split; [by rewrite <- Heq|done].
    + rewrite lookup_insert_ne by done. split.
      * intros [Hin|[Hacc Hk]]; [by left; right|]. right. by split.
      * intros [[Heq|Hin]|[Hacc [_ Hk]]]; [by rewrite <- Heq in Hne|by left|by right].
Qed.

Lemma collect_lookup out k v :
  NoDup (Key <$> out) → collect out !! k = Some v ↔ mkTuple k v ∈ out.
Proof.
  intros Hnd. unfold collect. rewrite collect_from by done.
  rewrite lookup_empty. split; [by intros [?|[? _]]|by left].
Qed.

Lemma size_collect_from out : ∀ acc : gmap string iface,
  NoDup (Key <$> out) →
  (∀ t, t ∈ out → acc !! Key t = None) →
  size (foldl (λ tmp item, <[Key item := Val item]> tmp) acc out)
    = (size acc + length out)%nat.
Proof.
  induction out as [|t rest IH]; intros acc Hnd Hacc; [cbn; lia|].
  cbn [foldl]. rewrite fmap_cons in Hnd. apply NoDup_cons in Hnd as [Ht Hnd].
  rewrite IH; [| done |].
  - rewrite map_size_insert_None by (apply Hacc; left). cbn. lia.
  - intros t' Hin. rewrite lookup_insert_ne; [apply Hacc; by right|].
    intros Heq. apply Ht. rewrite Heq. by apply list_elem_of_fmap_2.
Qed.

Lemma size_collect out : NoDup (Key <$> out) → size (collect out) = length out.
Proof.
  intros Hnd. unfold collect. rewrite size_collect_from by done.
  by rewrite map_size_empty.
Qed.

(** C5. In a state no call is running in, with every key in the shard of the
    router (as in every state the operations lead to), and [M] what [Count]
    returns: [Iterator] and [IteratorBuffered] have complete runs, and
    whatever the order of the [range] loops and of the goroutines, a complete
    run delivers [M] tuples with no key twice, and delivers [(k, v)] exactly
    when [Get(k)] returns [(v, true)]; [Items] returns the map with these
    entries. *)
Theorem iteration_complete m M :
  sized m → quiescent m → routed m →
  Count m = Returned M m →
  Iterator m (Iterator_in_turn m) ∧
  IteratorBuffered m (Iterator_in_turn m) ∧
  (∀ out, Iterator m out ∨ IteratorBuffered m out →
     length out = M ∧
     NoDup (Key <$> out) ∧
     ∀ k v, mkTuple k v ∈ out ↔ Get k m = Returned (v, true) m) ∧
  Items m (collect (Iterator_in_turn m)) ∧
  (∀ tmp, Items m tmp →
     size tmp = M ∧
     ∀ k v, tmp !! k = Some v ↔ Get k m = Returned (v, true) m).
Proof.
  intros Hm Hq Hr Hcount. rewrite Count_run in Hcount by done.
  injection Hcount as <-.
  assert (∀ out, Iterator m out ∨ IteratorBuffered m out →
     length out = sum_list (sizes m) ∧
     NoDup (Key <$> out) ∧
     ∀ k v, mkTuple k v ∈ out ↔ Get k m = Returned (v, true) m) as Hout.
  { intros out Hperm%Iterator_entries. split; [|split].
    - by rewrite Hperm, length_fmap, length_entries.
    - rewrite Hperm, Key_tuple_of. by apply NoDup_entries, routed_apart.
    - intros k v. rewrite Hperm, Get_entries by done.
      change (mkTuple k v) with (tuple_of (k, v)).
      by rewrite (@list_elem_of_fmap_inj _ _ tuple_of tuple_of_inj). }
  assert (IteratorBuffered m (Iterator_in_turn m)) as Hbuf.
  { exists (snapshot_in_turn m). split; [by apply snapshot_in_turn_run|].
    apply fan_in_turn_run. }
  split; [|split; [done|split; [done|split]]].
  - exists (snapshot_in_turn m). split; [by apply snapshot_in_turn_run|].
    apply fan_in_turn_run.
  - by exists (Iterator_in_turn m).
  - intros tmp (out & Hit & ->).
    destruct (Hout out (or_intror Hit)) as (Hlen & Hnd & Hin). split.
    + by rewrite <- Hlen, size_collect.
    + intros k v. by rewrite collect_lookup, Hin.
Qed.

Lemma scenario_ab_routed : routed scenario_ab.
Proof. apply reachable_wf, reach_Set, reach_Set, reach_New. Qed.

Lemma scenario_ab_quiescent : quiescent scenario_ab.
Proof. vm_compute. repeat constructor. Qed.

Lemma iteration_complete_witness :
  Iterator scenario_ab (Iterator_in_turn scenario_ab) ∧
  IteratorBuffered scenario_ab (Iterator_in_turn scenario_ab) ∧
  (∀ out, Iterator scenario_ab out ∨ IteratorBuffered scenario_ab out →
     length out = 2%nat ∧
     NoDup (Key <$> out) ∧
     ∀ k v, mkTuple k v ∈ out ↔ Get k scenario_ab = Returned (v, true) scenario_ab) ∧
  Items scenario_ab (collect (Iterator_in_turn scenario_ab)) ∧
  (∀ tmp, Items scenario_ab tmp →
     size tmp = 2%nat ∧
     ∀ k v, tmp !! k = Some v ↔ Get k scenario_ab = Returned (v, true) scenario_ab).
Proof.
  apply (iteration_complete scenario_ab 2);
    [reflexivity | exact scenario_ab_quiescent | exact scenario_ab_routed
    | reflexivity].
Defined.

(** ** Counting and the keys *)

Lemma Keys_entries m ks : Keys m ks → ks ≡ₚ (entries m).*1.
Proof.
  intros (count & sources & _ & Hall & Hfan).
  apply fan_permutation in Hfan. rewrite Hfan. clear Hfan.
  induction Hall as [|sh src m srcs (_ & order & Horder & ->) _ IH]; [done|].
  change (entries (sh :: m)) with (map_to_list (items sh) ++ entries m).
  rewrite fmap_app. cbn. by rewrite IH, Horder.
Qed.

Lemma Keys_in_turn_run m : sized m → quiescent m → Keys m (Keys_in_turn m).
Proof.
  intros Hm Hq. exists (sum_list (sizes m)), ((λ sh, (map_to_list (items sh)).*1) <$> m).
  split; [by apply Count_run|]. split; [|apply fan_in_turn_run].
  apply Forall2_fmap_r, Forall_Forall2_diag.
  eapply Forall_impl; [exact Hq|]. intros sh Hmu. cbn in Hmu.
  split; [by rewrite Hmu|]. exists (map_to_list (items sh)). by unfold range_order.
Qed.

Lemma elem_of_entries_keys m k :
  k ∈ (entries m).*1 ↔ k ∈ keys_present m.
Proof.
  rewrite elem_of_keys_present, list_elem_of_fmap. split.
  - intros ([k' v] & -> & (i & sh & Hi & Hk)%elem_of_entries). exists i, sh. eauto.
  - intros (i & sh & Hi & [v Hk]). exists (k, v). split; [done|].
    apply elem_of_entries. eauto.
Qed.

(** C8. In a state no call is running in, [Count] returns the sum of the
    sizes of the shards' maps and [IsEmpty] returns [true] exactly when that
    is 0; with every key in the shard of the router, the sum is the number
    of the keys present, which are the keys [Has] finds, and [Keys] returns
    these keys, each once, in some order.  In the scenario: after
    [set("a", 1)] and [set("b", 2)] on a new map, [count()] is 2 and
    [keys()] is a permutation of a, b; after [remove("a")], [count()] is 1,
    [has("a")] is [false] and [get("b")] is [(2, true)]. *)
Theorem Count_sums_shards :
  (∀ m, sized m → quiescent m →
     ∃ n b,
       Count m = Returned n m ∧
       n = sum_list (sizes m) ∧
       IsEmpty m = Returned b m ∧
       (b = true ↔ n = 0%nat) ∧
       Keys m (Keys_in_turn m) ∧
       (routed m →
          n = size (keys_present m) ∧
          (∀ k, k ∈ keys_present m ↔ Has k m = Returned true m) ∧
          ∀ ks, Keys m ks →
            length ks = n ∧ NoDup ks ∧
            ∀ k, k ∈ ks ↔ Has k m = Returned true m)) ∧
  (∃ m1,
     Set_ "a" (int_iface 1) NewConcurrentMap = Returned tt m1 ∧
     Set_ "b" (int_iface 2) m1 = Returned tt scenario_ab) ∧
  Count scenario_ab = Returned 2%nat scenario_ab ∧
  (∃ ks, Keys scenario_ab ks) ∧
  (∀ ks, Keys scenario_ab ks → ks ≡ₚ ["a"; "b"]) ∧
  Remove "a" scenario_ab = Returned tt scenario_b ∧
  Count scenario_b = Returned 1%nat scenario_b ∧
  Has "a" scenario_b = Returned false scenario_b ∧
  Get "b" scenario_b = Returned (int_iface 2, true) scenario_b.
Proof.
  split.
  { intros m Hm Hq. exists (sum_list (sizes m)), (Nat.eqb (sum_list (sizes m)) 0).
    split; [by apply Count_run|]. split; [done|]. split.
    { unfold IsEmpty; unfold_bind. by rewrite Count_run. }
    split; [apply Nat.eqb_eq|]. split; [by apply Keys_in_turn_run|].
    intros Hr. split; [symmetry; by apply size_keys_present, routed_apart|].
    split; [intros k; symmetry; by apply Has_keys_present|].
    intros ks Hks%Keys_entries. split; [|split].
    - by rewrite Hks, length_fmap, length_entries.
    - rewrite Hks. by apply NoDup_entries, routed_apart.
    - intros k. by rewrite Hks, elem_of_entries_keys, Has_keys_present. }
  split; [eexists; split; reflexivity|]. split; [reflexivity|].
  split; [exists (Keys_in_turn scenario_ab);
          apply Keys_in_turn_run; [done|apply scenario_ab_quiescent]|].
  split; [|repeat split; reflexivity].
  intros ks Hks%Keys_entries. rewrite Hks.
  change ((entries scenario_ab).*1) with ["b"; "a"]. apply perm_swap.
Qed.

Lemma Count_sums_shards_witness :
  ∃ n b,
    Count scenario_ab = Returned n scenario_ab ∧
    n = sum_list (sizes scenario_ab) ∧
    IsEmpty scenario_ab = Returned b scenario_ab ∧
    (b = true ↔ n = 0%nat) ∧
    Keys scenario_ab (Keys_in_turn scenario_ab) ∧
    (routed scenario_ab →
       n = size (keys_present scenario_ab) ∧
       (∀ k, k ∈ keys_present scenario_ab ↔ Has k scenario_ab = Returned true scenario_ab) ∧
       ∀ ks, Keys scenario_ab ks →
         length ks = n ∧ NoDup ks ∧
         ∀ k, k ∈ ks ↔ Has k scenario_ab = Returned true scenario_ab).
Proof.
  apply (proj1 Count_sums_shards scenario_ab);
    [reflexivity | exact scenario_ab_quiescent].
Defined.

(** * Further properties of the map *)

(** ** The state after a write *)

Lemma sum_list_insert (l : list nat) i x y :
  l !! i = Some x → (sum_list (<[i := y]> l) + x = sum_list l + y)%nat.
Proof.
  revert i. induction l as [|z l IH]; intros [|i] Hi; simplify_eq/=; [lia|].
  specialize (IH i Hi). lia.
Qed.

Lemma sizes_insert m i sh :
  sizes (<[i := sh]> m) = <[i := size (items sh)]> (sizes m).
Proof. unfold sizes. by rewrite list_fmap_insert. Qed.

(** [Count] after the items of one shard were replaced. *)
Lemma Count_insert m i sh its n :
  sized m → quiescent m → m !! i = Some sh →
  Count m = Returned n m →
  ∃ n', Count (<[i := mkShard its unlocked]> m)
          = Returned n' (<[i := mkShard its unlocked]> m) ∧
        (n' + size (items sh) = n + size its)%nat.
Proof.
  intros Hm Hq Hi Hn. rewrite Count_run in Hn by done. injection Hn as <-.
  exists (sum_list (sizes (<[i := mkShard its unlocked]> m))).
  split; [apply Count_run; eauto with cmap|].
  rewrite sizes_insert. apply sum_list_insert.
  unfold sizes. by rewrite list_lookup_fmap, Hi.
Qed.

(** X1. [Set] counts a key once: [Count] grows by one when the key was absent
    and stays when the key was present. *)
Theorem Set_Count m k v n :
  sized m → quiescent m → Count m = Returned n m →
  ∃ existed m',
    Has k m = Returned existed m ∧
    Set_ k v m = Returned tt m' ∧
    Count m' = Returned (if existed then n else S n) m'.
Proof.
  intros Hm Hq Hn. destruct (shard_ready m k Hm Hq) as (sh & Hi & Hmu).
  do 2 eexists. split; [by apply Has_run|]. split; [by apply Set_run|].
  destruct (Count_insert m (shard_index k) sh (<[k := v]> (items sh)) n)
    as (n' & -> & Hn'); try done.
  f_equal. rewrite map_size_insert in Hn'.
  destruct (items sh !! k) eqn:Hk; cbn in *; lia.
Qed.

Lemma Set_Count_witness :
  ∃ existed m',
    Has "b" scenario_ab = Returned existed scenario_ab ∧
    Set_ "b" (int_iface 7) scenario_ab = Returned tt m' ∧
    Count m' = Returned (if existed then 2%nat else 3%nat) m'.
Proof.
  apply (Set_Count scenario_ab "b" (int_iface 7) 2);
    [reflexivity | exact scenario_ab_quiescent | reflexivity].
Defined.

(** X2. [Remove] takes a key out once: [Count] drops by one when the key was
    present and stays when it was absent; a second [Remove] of the same key
    changes nothing. *)
Theorem Remove_Count m k n :
  sized m → quiescent m → Count m = Returned n m →
  ∃ existed m' n',
    Has k m = Returned existed m ∧
    Remove k m = Returned tt m' ∧
    Count m' = Returned n' m' ∧
    n = (if existed then S n' else n') ∧
    Remove k m' = Returned tt m'.
Proof.
  intros Hm Hq Hn. destruct (shard_ready m k Hm Hq) as (sh & Hi & Hmu).
  destruct (Count_insert m (shard_index k) sh (delete k (items sh)) n)
    as (n' & Hcount & Hn'); try done.
  exists (bool_decide (is_Some (items sh !! k))). do 2 eexists.
  split; [by apply Has_run|]. split; [by apply Remove_run|].
  split; [exact Hcount|]. split.
  - rewrite map_size_delete in Hn'.
    destruct (items sh !! k) eqn:Hk; cbn in *; [|lia].
    assert (size (items sh) ≠ 0%nat); [|lia].
    intros Hz%map_size_empty_inv. by rewrite Hz, lookup_empty in Hk.
  - erewrite Remove_run; eauto with cmap. cbn.
    by rewrite delete_delete_eq, list_insert_insert_eq.
Qed.

Lemma Remove_Count_witness :
  ∃ existed m' n',
    Has "a" scenario_ab = Returned existed scenario_ab ∧
    Remove "a" scenario_ab = Returned tt m' ∧
    Count m' = Returned n' m' ∧
    2%nat = (if existed then S n' else n') ∧
    Remove "a" m' = Returned tt m'.
Proof.
  apply (Remove_Count scenario_ab "a" 2);
    [reflexivity | exact scenario_ab_quiescent | reflexivity].
Defined.

(** X3. The last [Set] of a key wins, as if the earlier one had not happened,
    and [Set]s of different keys can be swapped: both orders end in the same
    state. *)
Theorem Set_overwrites_and_commutes m k1 v1 k2 v2 :
  sized m → quiescent m →
  ∃ m1 m2 m12,
    Set_ k1 v1 m = Returned tt m1 ∧
    Set_ k2 v2 m = Returned tt m2 ∧
    Set_ k2 v2 m1 = Returned tt m12 ∧
    (k1 = k2 → m12 = m2) ∧
    (k1 ≠ k2 → Set_ k1 v1 m2 = Returned tt m12).
Proof.
  intros Hm Hq.
  destruct (shard_ready m k1 Hm Hq) as (sh1 & Hi1 & Hmu1).
  destruct (shard_ready m k2 Hm Hq) as (sh2 & Hi2 & Hmu2).
  destruct (decide (shard_index k1 = shard_index k2)) as [Heq|Hne].
  - rewrite Heq in Hi1. simplify_eq.
    do 3 eexists. split; [by apply Set_run; rewrite ?Heq|].
    split; [by apply Set_run|]. split; [|split].
    + erewrite Set_run; [|eauto with cmap|rewrite Heq; eauto with cmap|done].
      cbn. rewrite Heq, list_insert_insert_eq. done.
    + intros ->. by rewrite insert_insert_eq.
    + intros Hk. erewrite Set_run; [|eauto with cmap|rewrite Heq; eauto with cmap|done].
      cbn. rewrite Heq, list_insert_insert_eq. by rewrite insert_insert_ne.
  - assert (k1 ≠ k2) as Hk by (by intros ->).
    rewrite (Set_run m k1 sh1), (Set_run m k2 sh2) by done.
    do 3 eexists. split; [done|]. split; [done|].
    rewrite (Set_run _ k2 sh2)
      by (eauto with cmap || by rewrite list_lookup_insert_ne).
    split; [done|]. split; [done|]. intros _.
    rewrite (Set_run _ k1 sh1)
      by (eauto with cmap || by rewrite list_lookup_insert_ne).
    by rewrite list_insert_insert_ne.
Qed.

Lemma Set_overwrites_and_commutes_witness :
  ∃ m1 m2 m12,
    Set_ "a" (int_iface 1) NewConcurrentMap = Returned tt m1 ∧
    Set_ "b" (int_iface 2) NewConcurrentMap = Returned tt m2 ∧
    Set_ "b" (int_iface 2) m1 = Returned tt m12 ∧
    ("a" = "b" → m12 = m2) ∧
    ("a" ≠ "b" → Set_ "a" (int_iface 1) m2 = Returned tt m12).
Proof.
  apply (Set_overwrites_and_commutes NewConcurrentMap "a" (int_iface 1) "b" (int_iface 2));
    [reflexivity | apply Forall_replicate; reflexivity].
Defined.

(** X4. [Pop] can be undone: when it returns a value (flag [true]), a [Set] of
    that value gives back the state before the [Pop]. *)
Theorem Pop_Set_restores m k v m' :
  sized m → quiescent m →
  Pop k m = Returned (v, true) m' →
  Set_ k v m' = Returned tt m.
Proof.
  intros Hm Hq Hpop. destruct (shard_ready m k Hm Hq) as (sh & Hi & Hmu).
  erewrite Pop_run in Hpop by eauto. injection Hpop as Hv Hk <-.
  apply bool_decide_eq_true in Hk as [w Hw]. rewrite Hw in Hv. cbn in Hv. subst w.
  erewrite Set_run; eauto with cmap. cbn.
  rewrite list_insert_insert_eq, insert_delete_eq, insert_id by done.
  by rewrite unlocked_id.
Qed.

Lemma Pop_Set_restores_witness :
  Set_ "a" (int_iface 1) scenario_b = Returned tt scenario_ab.
Proof.
  apply (Pop_Set_restores scenario_ab "a" (int_iface 1) scenario_b);
    [reflexivity | exact scenario_ab_quiescent | reflexivity].
Defined.

(** X5. [SetIfAbsent] returns [true] exactly when the key was absent; then it
    ends in the state [Set] ends in, otherwise it changes nothing. *)
Theorem SetIfAbsent_as_Set m k v :
  sized m → quiescent m →
  ∃ existed inserted m' m1,
    Has k m = Returned existed m ∧
    SetIfAbsent k v m = Returned inserted m' ∧
    inserted = negb existed ∧
    Set_ k v m = Returned tt m1 ∧
    m' = (if existed then m else m1).
Proof.
  intros Hm Hq. destruct (shard_ready m k Hm Hq) as (sh & Hi & Hmu).
  erewrite Has_run, SetIfAbsent_run, Set_run by eauto.
  destruct (items sh !! k) eqn:Hk.
  - by exists true; do 3 eexists.
  - by exists false; do 3 eexists.
Qed.

Lemma SetIfAbsent_as_Set_witness :
  ∃ existed inserted m' m1,
    Has "a" scenario_b = Returned existed scenario_b ∧
    SetIfAbsent "a" (int_iface 1) scenario_b = Returned inserted m' ∧
    inserted = negb existed ∧
    Set_ "a" (int_iface 1) scenario_b = Returned tt m1 ∧
    m' = (if existed then scenario_b else m1).
Proof.
  apply (SetIfAbsent_as_Set scenario_b "a" (int_iface 1));
    [reflexivity | vm_compute; repeat constructor].
Defined.

(** ** Setting many keys *)

(** What one [Set] does, for use in sequences of calls. *)
Lemma Set_ready m k v :
  sized m → quiescent m →
  ∃ m1, Set_ k v m = Returned tt m1 ∧ sized m1 ∧ quiescent m1 ∧
        Get k m1 = Returned (v, true) m1 ∧
        ∀ k' r, k' ≠ k → Get k' m = Returned r m → Get k' m1 = Returned r m1.
Proof.
  intros Hm Hq. destruct (shard_ready m k Hm Hq) as (sh & Hi & Hmu).
  eexists. split; [by apply Set_run|]. split; [eauto with cmap|].
  split; [eauto with cmap|]. split.
  - erewrite Get_run; eauto with cmap. cbn. by rewrite lookup_insert_eq.
  - intros k' r Hne Hget. eapply Get_other; eauto. cbn. by rewrite lookup_insert_ne.
Qed.

(** The body of the loop of [MSet] is the body of [Set]. *)
Lemma MSet_range_cons k v rest m :
  MSet_range ((k, v) :: rest) m =
    match Set_ k v m with
    | Returned _ m1 => MSet_range rest m1
    | Panicked p m1 => Panicked p m1
    | Blocked m1 => Blocked m1
    end.
Proof.
  cbn [MSet_range]. unfold Set_; unfold_bind.
  destruct (GetShard k m) as [i m0|p m0|m0]; [|done..].
  destruct (Lock i m0) as [[] m1|p m1|m1]; [|done..].
  destruct (store i k v m1) as [[] m2|p m2|m2]; [|done..].
  by destruct (Unlock i m2) as [[] m3|p m3|m3].
Qed.

Lemma MSet_range_ready order : ∀ m,
  sized m → quiescent m →
  ∃ m', MSet_range order m = Returned tt m' ∧ sized m' ∧ quiescent m' ∧
        ∀ k r, k ∉ order.*1 → Get k m = Returned r m → Get k m' = Returned r m'.
Proof.
  induction order as [|[k v] rest IH]; intros m Hm Hq.
  - by exists m.
  - destruct (Set_ready m k v Hm Hq) as (m1 & Hset & Hm1 & Hq1 & _ & Hframe).
    destruct (IH m1 Hm1 Hq1) as (m' & Hrest & Hm' & Hq' & Hframe').
    exists m'. rewrite MSet_range_cons, Hset. split; [done|]. split; [done|].
    split; [done|]. intros k' r Hk' Hget. rewrite fmap_cons, not_elem_of_cons in Hk'.
    destruct Hk' as [Hne Hk']. eauto.
Qed.

Lemma MSet_range_Get order : ∀ m m' k v,
  sized m → quiescent m → NoDup order.*1 →
  MSet_range order m = Returned tt m' →
  (k, v) ∈ order → Get k m' = Returned (v, true) m'.
Proof.
  induction order as [|[k0 v0] rest IH]; intros m m' k v Hm Hq Hnd Hrun Hin.
  - by apply elem_of_nil in Hin.
  - rewrite fmap_cons in Hnd. apply NoDup_cons in Hnd as [Hk0 Hnd].
    destruct (Set_ready m k0 v0 Hm Hq) as (m1 & Hset & Hm1 & Hq1 & Hget & _).
    rewrite MSet_range_cons, Hset in Hrun.
    apply elem_of_cons in Hin as [[= -> ->]|Hin]; [|by eapply IH].
    destruct (MSet_range_ready rest m1 Hm1 Hq1) as (m'' & Hrun' & _ & _ & Hframe).
    rewrite Hrun' in Hrun. injection Hrun as <-. by apply Hframe.
Qed.

(** Two runs of the loop that meet the same entries in different orders end
    in the same state. *)
Lemma MSet_range_Permutation order order' :
  order ≡ₚ order' → NoDup order.*1 →
  ∀ m, sized m → quiescent m → MSet_range order m = MSet_range order' m.
Proof.
  induction 1 as [|[k v] l l' Hl IH|[k1 v1] [k2 v2] l|l1 l2 l3 H12 IH12 H23 IH23];
    intros Hnd m Hm Hq.
  - done.
  - rewrite fmap_cons in Hnd. apply NoDup_cons in Hnd as [_ Hnd].
    destruct (Set_ready m k v Hm Hq) as (m1 & Hset & Hm1 & Hq1 & _).
    rewrite !MSet_range_cons, Hset. by apply IH.
  - rewrite !fmap_cons in Hnd. apply NoDup_cons in Hnd as [Hne _].
    rewrite not_elem_of_cons in Hne. destruct Hne as [Hne _]. cbn in Hne.
    destruct (Set_overwrites_and_commutes m k1 v1 k2 v2 Hm Hq)
      as (m1 & m2 & m12 & H1 & H2 & H12 & _ & H21).
    rewrite !(MSet_range_cons _ _ (_ :: _)), H1, H2. cbv beta iota.
    by rewrite !MSet_range_cons, H12, H21.
  - rewrite IH12 by done. apply IH23; [|done..]. by rewrite <- H12.
Qed.

(** X6. [MSet(data)] returns; afterwards every key of [data] has its value
    from [data], every other key is as before, and the state it ends in does
    not depend on the order in which the loop met the entries. *)
Theorem MSet_stores_all (data : gmap string iface) order m :
  sized m → quiescent m → range_order data order →
  ∃ m', MSet_range order m = Returned tt m' ∧
        (∀ k v, data !! k = Some v → Get k m' = Returned (v, true) m') ∧
        (∀ k r, data !! k = None → Get k m = Returned r m → Get k m' = Returned r m') ∧
        (∀ order', range_order data order' → MSet_range order' m = Returned tt m').
Proof.
  intros Hm Hq Horder. unfold range_order in Horder.
  assert (NoDup order.*1) as Hnd.
  { rewrite Horder. apply NoDup_fst_map_to_list. }
  destruct (MSet_range_ready order m Hm Hq) as (m' & Hrun & _ & _ & Hframe).
  exists m'. split; [done|]. split; [|split].
  - intros k v Hk. eapply MSet_range_Get; eauto.
    rewrite Horder. by apply elem_of_map_to_list.
  - intros k r Hk Hget. apply Hframe; [|done].
    rewrite Horder. intros ([k' v] & -> & Hin%elem_of_map_to_list)%list_elem_of_fmap.
    cbn in Hk. by rewrite Hin in Hk.
  - intros order' Horder'. unfold range_order in Horder'.
    rewrite <- Hrun. symmetry. apply MSet_range_Permutation; [|done..].
    by rewrite Horder, Horder'.
Qed.

Lemma MSet_stores_all_witness :
  ∃ m', MSet_range [("b", int_iface 2); ("a", int_iface 1)] NewConcurrentMap
          = Returned tt m' ∧
        (∀ k v, ({[ "a" := int_iface 1; "b" := int_iface 2 ]} : gmap string iface) !! k = Some v →
           Get k m' = Returned (v, true) m') ∧
        (∀ k r, ({[ "a" := int_iface 1; "b" := int_iface 2 ]} : gmap string iface) !! k = None →
           Get k NewConcurrentMap = Returned r NewConcurrentMap →
           Get k m' = Returned r m') ∧
        (∀ order',
           range_order ({[ "a" := int_iface 1; "b" := int_iface 2 ]} : gmap string iface) order' →
           MSet_range order' NewConcurrentMap = Returned tt m').
Proof.
  apply (MSet_stores_all {[ "a" := int_iface 1; "b" := int_iface 2 ]}
           [("b", int_iface 2); ("a", int_iface 1)] NewConcurrentMap);
    [reflexivity | apply Forall_replicate; reflexivity |].
  unfold range_order. vm_compute. apply perm_swap.
Defined.

(** ** A combinator that returns is a [Set] *)

(** X7. When [UpdateOrInsert(k, v, cb)] returns [res], the map is in the state
    in which [Set(k, res)] would have left it. *)
Theorem UpdateOrInsert_as_Set {C} m k v (cb : UpdateOrInsertCb C) e res m' e' :
  sized m → quiescent m →
  UpdateOrInsert k v cb (m, e) = Returned res (m', e') →
  Set_ k res m = Returned tt m'.
Proof.
  intros Hm Hq Hrun. destruct (shard_ready m k Hm Hq) as (sh & Hi & Hmu).
  erewrite UpdateOrInsert_run in Hrun by eauto. cbn zeta in Hrun.
  destruct (cb _ _ _ _) as [[res'|p] e'']; [|done].
  injection Hrun as -> <- <-. by apply Set_run.
Qed.

Lemma UpdateOrInsert_as_Set_witness :
  Set_ "b" (int_iface 5) scenario_ab
  = Returned tt (final (UpdateOrInsert "b" (int_iface 3) sum_cb (scenario_ab, tt))).1.
Proof.
  apply (UpdateOrInsert_as_Set scenario_ab "b" (int_iface 3) sum_cb tt (int_iface 5)
           (final (UpdateOrInsert "b" (int_iface 3) sum_cb (scenario_ab, tt))).1 tt);
    [reflexivity | exact scenario_ab_quiescent | reflexivity].
Defined.

(** ** One shard per call *)

Lemma only_shard_insert m i s sh :
  only_shard m i s → only_shard m i (<[i := sh]> s).
Proof.
  intros [Hlen Hs]. split; [by rewrite length_insert|].
  intros j Hj. rewrite list_lookup_insert_ne by done. by apply Hs.
Qed.

Section one_shard.
Context (m : ConcurrentMap) (i : nat).

Lemma on_shard_only {A} (f : ConcurrentMapShared → option (A * ConcurrentMapShared)) :
  maintains (only_shard m i) (on_shard i f) (λ _, True).
Proof.
  intros s Hs. unfold on_shard. destruct (s !! i) as [sh|]; [|done].
  destruct (f sh) as [[a sh']|]; [|done]. split; [|done].
  by apply only_shard_insert.
Qed.

Lemma Unlock_only : maintains (only_shard m i) (Unlock i) (λ _, True).
Proof.
  intros s Hs. unfold Unlock. destruct (s !! i) as [sh|]; [|done].
  destruct (writer _); [|done]. split; [|done]. by apply only_shard_insert.
Qed.

Lemma RUnlock_only : maintains (only_shard m i) (RUnlock i) (λ _, True).
Proof.
  intros s Hs. unfold RUnlock. destruct (s !! i) as [sh|]; [|done].
  destruct (readers _); [done|]. split; [|done]. by apply only_shard_insert.
Qed.

Lemma Lock_only : maintains (only_shard m i) (Lock i) (λ _, True).
Proof. apply on_shard_only. Qed.

Lemma RLock_only : maintains (only_shard m i) (RLock i) (λ _, True).
Proof. apply on_shard_only. Qed.

Lemma load_only key : maintains (only_shard m i) (load i key) (λ _, True).
Proof. apply on_shard_only. Qed.

Lemma store_only key value : maintains (only_shard m i) (store i key value) (λ _, True).
Proof. apply on_shard_only. Qed.

Lemma delete_key_only key : maintains (only_shard m i) (delete_key i key) (λ _, True).
Proof. apply on_shard_only. Qed.
End one_shard.

Lemma GetShard_any (I : ConcurrentMap → Prop) key :
  maintains I (GetShard key) (λ i, i = shard_index key).
Proof. intros s Hs. unfold GetShard, index. by case_decide. Qed.

Create HintDb only.
#[local] Hint Resolve Lock_only RLock_only Unlock_only RUnlock_only load_only
  store_only delete_key_only maintains_ret : only.

Ltac touch_one :=
  repeat first
    [ eapply maintains_bind; [apply GetShard_any|]; intros ? ->
    | eapply maintains_bind; [solve [eauto with only]|]; intros [? ?] _
    | eapply maintains_bind; [solve [eauto with only]|]; intros ? _
    | solve [eauto with only] ].

Lemma on_map_only {C A} m i (c : M ConcurrentMap A) Q :
  maintains (only_shard m i) c Q →
  maintains (λ s : ConcurrentMap * C, only_shard m i s.1) (on_map c) Q.
Proof.
  intros Hc [s e] Hs. specialize (Hc s Hs). unfold on_map. cbn.
  by destruct (c s).
Qed.

(** X8. Whatever the state of the map and of its locks, and however the call
    ends (it returns, panics or blocks), a call for the key [k] leaves every
    shard but the one the router gives [k] exactly as it was, locks
    included. *)
Theorem calls_touch_one_shard m k :
  (∀ v, only_shard m (shard_index k) (final (Set_ k v m))) ∧
  (∀ v, only_shard m (shard_index k) (final (SetIfAbsent k v m))) ∧
  only_shard m (shard_index k) (final (Get k m)) ∧
  only_shard m (shard_index k) (final (Has k m)) ∧
  only_shard m (shard_index k) (final (Remove k m)) ∧
  only_shard m (shard_index k) (final (Pop k m)) ∧
  (∀ C v (cb : UpdateOrInsertCb C) e,
     only_shard m (shard_index k) (final (UpdateOrInsert k v cb (m, e))).1).
Proof.
  assert (only_shard m (shard_index k) m) as H0 by done.
  repeat split_and; intros.
  - eapply (maintains_final (only_shard m (shard_index k)) _ (λ _, True)); [|done].
    unfold Set_. touch_one.
  - eapply (maintains_final (only_shard m (shard_index k)) _ (λ _, True)); [|done].
    unfold SetIfAbsent. touch_one.
    eapply maintains_bind; [by destruct (negb _); eauto with only|]; intros _ _.
    touch_one.
  - eapply (maintains_final (only_shard m (shard_index k)) _ (λ _, True)); [|done].
    unfold Get. touch_one.
  - eapply (maintains_final (only_shard m (shard_index k)) _ (λ _, True)); [|done].
    unfold Has. touch_one.
  - eapply (maintains_final (only_shard m (shard_index k)) _ (λ _, True)); [|done].
    unfold Remove. touch_one.
  - eapply (maintains_final (only_shard m (shard_index k)) _ (λ _, True)); [|done].
    unfold Pop. touch_one.
  - eapply (maintains_final (λ s : ConcurrentMap * C, only_shard m (shard_index k) s.1)
              _ (λ _, True)); [|done].
    unfold UpdateOrInsert.
    eapply maintains_bind; [apply on_map_only, GetShard_any|]. intros ? ->.
    eapply maintains_bind; [apply on_map_only, Lock_only|]. intros _ _.
    eapply maintains_bind; [apply on_map_only, load_only|]. intros [cur ok] _.
    eapply (maintains_bind _ _ _ (λ _, True)).
    { intros [s e'] Hs. unfold call. cbn.
      by destruct (cb _ _ _ _) as [[res|p] e'']. }
    intros res _.
    eapply maintains_bind; [apply on_map_only, store_only|]. intros _ _.
    eapply maintains_bind; [apply on_map_only, Unlock_only|]. intros _ _.
    by apply maintains_ret.
Qed.

(** ** Locks somebody holds *)

Section held.
Context (m : ConcurrentMap) (i : nat) (sh : ConcurrentMapShared).
Hypothesis Hi : m !! i = Some sh.

Lemma RLock_blocked : writer (mu sh) = true → RLock i m = Blocked m.
Proof. intros Hmu. unfold RLock, on_shard. by rewrite Hi, Hmu. Qed.

Lemma Lock_blocked_readers n :
  readers (mu sh) = S n → Lock i m = Blocked m.
Proof.
  intros Hmu. unfold Lock, on_shard. rewrite Hi, Hmu.
  by rewrite orb_true_r.
Qed.

Lemma RLock_shared :
  writer (mu sh) = false →
  RLock i m =
    Returned tt (<[i := mkShard (items sh) (mkRWMutex false (S (readers (mu sh))))]> m).
Proof. intros Hmu. unfold RLock, on_shard. by rewrite Hi, Hmu. Qed.

Lemma RUnlock_shared w n :
  mu sh = mkRWMutex w (S n) →
  RUnlock i m = Returned tt (<[i := mkShard (items sh) (mkRWMutex w n)]> m).
Proof. intros Hmu. unfold RUnlock. by rewrite Hi, Hmu. Qed.

(** Taking and giving back a read lock leaves the shard as it was. *)
Lemma shared_id :
  writer (mu sh) = false →
  <[i := mkShard (items sh) (mkRWMutex false (readers (mu sh)))]> m = m.
Proof.
  intros Hmu. apply list_insert_id. rewrite Hi. f_equal.
  destruct sh as [its [w n]]. cbn in *. by subst.
Qed.
End held.

Section held_shard.
Context (m : ConcurrentMap) (key : string) (sh : ConcurrentMapShared).
Hypothesis Hm : sized m.
Hypothesis Hi : m !! shard_index key = Some sh.

Lemma Get_shared :
  writer (mu sh) = false →
  Get key m =
    Returned (default nil_iface (items sh !! key), bool_decide (is_Some (items sh !! key))) m.
Proof.
  intros Hmu. unfold Get; unfold_bind. rewrite GetShard_run by done.
  erewrite RLock_shared by eauto.
  erewrite load_run by eauto using here. rewrite list_insert_insert_eq.
  erewrite RUnlock_shared by eauto using here. rewrite list_insert_insert_eq.
  cbn [items]. by rewrite shared_id.
Qed.

Lemma Has_shared :
  writer (mu sh) = false →
  Has key m = Returned (bool_decide (is_Some (items sh !! key))) m.
Proof.
  intros Hmu. unfold Has; unfold_bind. rewrite GetShard_run by done.
  erewrite RLock_shared by eauto.
  erewrite load_run by eauto using here. rewrite list_insert_insert_eq.
  erewrite RUnlock_shared by eauto using here. rewrite list_insert_insert_eq.
  cbn [items]. by rewrite shared_id.
Qed.

(** The calls that write wait for the lock before anything else. *)
Lemma writers_wait value :
  Lock (shard_index key) m = Blocked m →
  Set_ key value m = Blocked m ∧
  SetIfAbsent key value m = Blocked m ∧
  Remove key m = Blocked m ∧
  Pop key m = Blocked m ∧
  ∀ C (cb : UpdateOrInsertCb C) e, UpdateOrInsert key value cb (m, e) = Blocked (m, e).
Proof.
  intros Hlock. repeat split_and; intros.
  - unfold Set_; unfold_bind. rewrite GetShard_run by done.
    cbv beta iota. cbn [fst snd]. by rewrite Hlock.
  - unfold SetIfAbsent; unfold_bind. rewrite GetShard_run by done.
    cbv beta iota. cbn [fst snd]. by rewrite Hlock.
  - unfold Remove; unfold_bind. rewrite GetShard_run by done.
    cbv beta iota. cbn [fst snd]. by rewrite Hlock.
  - unfold Pop; unfold_bind. rewrite GetShard_run by done.
    cbv beta iota. cbn [fst snd]. by rewrite Hlock.
  - unfold UpdateOrInsert, on_map; unfold_bind. cbn [fst snd].
    rewrite GetShard_run by done.
    cbv beta iota. cbn [fst snd]. by rewrite Hlock.
Qed.

Lemma readers_wait :
  writer (mu sh) = true → Get key m = Blocked m ∧ Has key m = Blocked m.
Proof.
  intros Hmu. split.
  - unfold Get; unfold_bind. rewrite GetShard_run by done.
    by erewrite RLock_blocked by eauto.
  - unfold Has; unfold_bind. rewrite GetShard_run by done.
    by erewrite RLock_blocked by eauto.
Qed.
End held_shard.

(** X9. While the write lock of a shard is held, every call for a key of that
    shard blocks, with the map as it was and the combinator of
    [UpdateOrInsert] not called. *)
Theorem write_locked_shard_blocks m k v sh :
  sized m → m !! shard_index k = Some sh → writer (mu sh) = true →
  Get k m = Blocked m ∧
  Has k m = Blocked m ∧
  Set_ k v m = Blocked m ∧
  SetIfAbsent k v m = Blocked m ∧
  Remove k m = Blocked m ∧
  Pop k m = Blocked m ∧
  ∀ C (cb : UpdateOrInsertCb C) e, UpdateOrInsert k v cb (m, e) = Blocked (m, e).
Proof.
  intros Hm Hi Hmu.
  destruct (readers_wait m k sh Hm Hi Hmu) as [-> ->].
  split; [done|]. split; [done|].
  apply writers_wait; [done|]. by eapply Lock_blocked.
Qed.

(** X10. While read locks of a shard are held and no write lock, [Get] and
    [Has] for a key of that shard return what the shard holds and leave the
    map as it was, read locks included; the calls that write block. *)
Theorem read_locked_shard_shares m k v sh n :
  sized m → m !! shard_index k = Some sh → mu sh = mkRWMutex false (S n) →
  Get k m = Returned (default nil_iface (items sh !! k),
                      bool_decide (is_Some (items sh !! k))) m ∧
  Has k m = Returned (bool_decide (is_Some (items sh !! k))) m ∧
  Set_ k v m = Blocked m ∧
  SetIfAbsent k v m = Blocked m ∧
  Remove k m = Blocked m ∧
  Pop k m = Blocked m ∧
  ∀ C (cb : UpdateOrInsertCb C) e, UpdateOrInsert k v cb (m, e) = Blocked (m, e).
Proof.
  intros Hm Hi Hmu.
  split; [apply Get_shared; by rewrite ?Hmu|].
  split; [apply Has_shared; by rewrite ?Hmu|].
  apply writers_wait; [done|]. eapply Lock_blocked_readers; [done|].
  by rewrite Hmu.
Qed.

(** ** The whole map while a write lock is held *)

Lemma Count_loop_blocked m todo : ∀ i count,
  (∃ j sh, (i ≤ j < i + todo)%nat ∧ m !! j = Some sh ∧ writer (mu sh) = true) →
  Count_loop todo i count m = Blocked m.
Proof.
  induction todo as [|todo IH]; intros i count (j & sh & Hj & Hsh & Hmu); [lia|].
  destruct (lookup_lt_is_Some_2 m i) as [shi Hi].
  { apply lookup_lt_Some in Hsh. lia. }
  cbn [Count_loop]; unfold_bind.
  rewrite index_run by (by eapply lookup_lt_Some).
  destruct (writer (mu shi)) eqn:Hw.
  - by erewrite RLock_blocked by eauto.
  - erewrite RLock_shared by eauto.
    erewrite len_items_run by eauto using here. rewrite list_insert_insert_eq.
    erewrite RUnlock_shared by eauto using here. rewrite list_insert_insert_eq.
    cbn [items]. rewrite shared_id by done.
    apply IH. exists j, sh. split; [|done].
    destruct (decide (j = i)) as [->|]; [|lia]. simplify_eq. congruence.
Qed.

(** X11. While the write lock of some shard is held, [Count] and [IsEmpty]
    block, and [Iterator], [IteratorBuffered], [Items] and [Keys] have no
    complete run: none of them returns before the lock is released. *)
Theorem write_lock_stops_aggregates m sh :
  sized m → sh ∈ m → writer (mu sh) = true →
  Count m = Blocked m ∧
  IsEmpty m = Blocked m ∧
  (∀ out, ¬ Iterator m out) ∧
  (∀ out, ¬ IteratorBuffered m out) ∧
  (∀ tmp, ¬ Items m tmp) ∧
  (∀ keys, ¬ Keys m keys).
Proof.
  intros Hm [j Hj]%list_elem_of_lookup Hmu.
  assert (Count m = Blocked m) as Hcount.
  { apply Count_loop_blocked. exists j, sh. split; [|done].
    apply lookup_lt_Some in Hj. rewrite Hm in Hj. lia. }
  assert (∀ chs, ¬ snapshot m chs) as Hsnap.
  { intros chs [_ Hall].
    destruct (Forall2_lookup_l _ _ _ _ _ Hall Hj) as (ch & _ & Hfree & _).
    congruence. }
  split; [done|]. split; [unfold IsEmpty; unfold_bind; by rewrite Hcount|].
  split; [intros out (chs & Hs & _); by eapply Hsnap|].
  split; [intros out (chs & Hs & _); by eapply Hsnap|].
  split; [intros tmp (out & (chs & Hs & _) & _); by eapply Hsnap|].
  intros keys (count & srcs & Hc & _). congruence.
Qed.

Lemma write_locked_shard_blocks_witness :
  Get "c" scenario_write_locked = Blocked scenario_write_locked ∧
  Has "c" scenario_write_locked = Blocked scenario_write_locked ∧
  Set_ "c" (int_iface 1) scenario_write_locked = Blocked scenario_write_locked ∧
  SetIfAbsent "c" (int_iface 1) scenario_write_locked = Blocked scenario_write_locked ∧
  Remove "c" scenario_write_locked = Blocked scenario_write_locked ∧
  Pop "c" scenario_write_locked = Blocked scenario_write_locked ∧
  ∀ C (cb : UpdateOrInsertCb C) e,
    UpdateOrInsert "c" (int_iface 1) cb (scenario_write_locked, e)
      = Blocked (scenario_write_locked, e).
Proof.
  apply (write_locked_shard_blocks scenario_write_locked "c" (int_iface 1)
           (mkShard ∅ (mkRWMutex true 0)));
    vm_compute; reflexivity.
Defined.

Lemma write_lock_stops_aggregates_witness :
  Count scenario_write_locked = Blocked scenario_write_locked ∧
  IsEmpty scenario_write_locked = Blocked scenario_write_locked ∧
  (∀ out, ¬ Iterator scenario_write_locked out) ∧
  (∀ out, ¬ IteratorBuffered scenario_write_locked out) ∧
  (∀ tmp, ¬ Items scenario_write_locked tmp) ∧
  (∀ keys, ¬ Keys scenario_write_locked keys).
Proof.
  apply (write_lock_stops_aggregates scenario_write_locked
           (mkShard ∅ (mkRWMutex true 0)));
    [vm_compute; reflexivity | | reflexivity].
  apply list_elem_of_lookup. exists (shard_index "c"). vm_compute. reflexivity.
Defined.

(** ** Iteration with a callback *)

(** The inner loop does not touch the map. *)
Lemma IteratorCb_range_run {C} (fn : IteratorCb_fn C) order : ∀ m e,
  match IteratorCb_range fn order (m, e) with
  | Returned _ s => s.1 = m
  | Panicked _ s => s.1 = m
  | Blocked _ => False
  end.
Proof.
  induction order as [|[k v] rest IH]; intros m e; [done|].
  cbn [IteratorCb_range]. unfold call_fn; unfold_bind. cbn [fst snd].
  destruct (fn k v e) as [[|p] e1] eqn:Hfn; [|done]. apply IH.
Qed.






Lemma IteratorCb_loop_outcomes {C} (fn : IteratorCb_fn C) orders : ∀ m idx e,
  quiescent m → (idx + length orders ≤ length m)%nat →
  match IteratorCb_loop fn orders idx (m, e) with
  | Returned _ s => s.1 = m
  | Panicked _ s =>
      ∃ j sh, m !! j = Some sh ∧
              s.1 = <[j := mkShard (items sh) (mkRWMutex false 1)]> m
  | Blocked _ => False
  end.
Proof.
  induction orders as [|order orders IH]; intros m idx e Hq Hlen; [done|].
  cbn in Hlen. destruct (lookup_lt_is_Some_2 m idx) as [sh Hi]; [lia|].
  pose proof (quiescent_lookup _ _ _ Hq Hi) as Hmu.
  cbn [IteratorCb_loop]. unfold on_map; unfold_bind. cbn [fst snd].
  rewrite index_run by lia. cbn [fst snd].
  erewrite RLock_run by eauto. cbn [fst snd].
  pose proof (IteratorCb_range_run fn order
                (<[idx := mkShard (items sh) (mkRWMutex false 1)]> m) e) as Hrange.
  destruct (IteratorCb_range fn order _) as [[] [m1 e1]|p [m1 e1]|]; [| |done].
  - cbn in Hrange. subst m1. cbn [fst snd].
    erewrite RUnlock_run by eauto using here. cbn [fst snd items].
    rewrite list_insert_insert_eq, list_insert_id by (rewrite Hi, <- Hmu; by destruct sh).
    apply IH; [done|lia].
  - cbn in Hrange. subst m1. by exists idx, sh.
Qed.







Lemma read_locked_shard_shares_witness :
  Get "a" scenario_read_locked
    = Returned (default nil_iface (items shard_a_read_locked !! "a"),
                bool_decide (is_Some (items shard_a_read_locked !! "a")))
        scenario_read_locked ∧
  Has "a" scenario_read_locked
    = Returned (bool_decide (is_Some (items shard_a_read_locked !! "a")))
        scenario_read_locked ∧
  Set_ "a" (int_iface 9) scenario_read_locked = Blocked scenario_read_locked ∧
  SetIfAbsent "a" (int_iface 9) scenario_read_locked = Blocked scenario_read_locked ∧
  Remove "a" scenario_read_locked = Blocked scenario_read_locked ∧
  Pop "a" scenario_read_locked = Blocked scenario_read_locked ∧
  ∀ C (cb : UpdateOrInsertCb C) e,
    UpdateOrInsert "a" (int_iface 9) cb (scenario_read_locked, e)
      = Blocked (scenario_read_locked, e).
Proof.
  apply (read_locked_shard_shares scenario_read_locked "a" (int_iface 9)
           shard_a_read_locked 0).
  - vm_compute; reflexivity.
  - vm_compute; reflexivity.
  - reflexivity.
Defined.

(** ** The empty map *)

(** X14. [IsEmpty] returns [true] exactly when [Has] finds no key. *)
Theorem IsEmpty_no_key m :
  sized m → quiescent m → routed m →
  IsEmpty m = Returned true m ↔ ∀ k, Has k m = Returned false m.
Proof.
  intros Hm Hq Hr. unfold IsEmpty; unfold_bind. rewrite Count_run by done.
  rewrite <- (size_keys_present m) by (by apply routed_apart).
  split.
  - intros [= Hz%Nat.eqb_eq]. apply size_empty_inv in Hz.
    rewrite elem_of_equiv_empty in Hz. intros k.
    destruct (shard_ready m k Hm Hq) as (sh & Hi & Hmu).
    erewrite Has_run by eauto. f_equal. apply bool_decide_eq_false_2. intros Hk.
    apply (Hz k), elem_of_keys_present. eauto.
  - intros Hno. f_equal. apply Nat.eqb_eq, size_empty_iff, elem_of_equiv_empty.
    intros k Hk.
    apply (Has_keys_present m Hm Hq Hr) in Hk. by rewrite Hno in Hk.
Qed.

Lemma IsEmpty_no_key_witness :
  IsEmpty NewConcurrentMap = Returned true NewConcurrentMap ↔
  ∀ k, Has k NewConcurrentMap = Returned false NewConcurrentMap.
Proof.
  apply (IsEmpty_no_key NewConcurrentMap);
    [reflexivity | apply Forall_replicate; reflexivity | apply wf_New].
Defined.

(** X15. A new map has its 32 shards, no lock held and no entry: [Get] finds
    no key, [Count] is 0, and every complete run of the iterators and of
    [Keys] delivers nothing. *)
Theorem NewConcurrentMap_is_empty :
  length NewConcurrentMap = 32%nat ∧
  quiescent NewConcurrentMap ∧
  (∀ k, Get k NewConcurrentMap = Returned (nil_iface, false) NewConcurrentMap) ∧
  Count NewConcurrentMap = Returned 0%nat NewConcurrentMap ∧
  (∀ out, Iterator NewConcurrentMap out ∨ IteratorBuffered NewConcurrentMap out → out = []) ∧
  (∀ tmp, Items NewConcurrentMap tmp → tmp = ∅) ∧
  (∀ keys, Keys NewConcurrentMap keys → keys = []).
Proof.
  split; [done|]. split; [apply NewConcurrentMap_quiescent|].
  split; [|split; [done|split; [|split]]].
  - intros k.
    erewrite (Get_run NewConcurrentMap k (mkShard ∅ unlocked)); [done|done| |done].
    apply lookup_replicate_2, shard_index_lt.
  - intros out Hout%Iterator_entries. by apply Permutation_nil_r in Hout.
  - intros tmp (out & Hout & ->).
    assert (out = []) as ->; [|done].
    pose proof (Iterator_entries _ _ (or_intror Hout)) as Hperm.
    by apply Permutation_nil_r in Hperm.
  - intros keys Hks%Keys_entries. by apply Permutation_nil_r in Hks.
Qed.

(** X16. [Keys] returns the keys of the map that [Items] returns: the same
    keys, each once, in some order. *)
Theorem Keys_of_Items m keys tmp :
  sized m → quiescent m → routed m →
  Keys m keys → Items m tmp →
  keys ≡ₚ (map_to_list tmp).*1.
Proof.
  intros Hm Hq Hr Hks%Keys_entries (out & Hbuf & ->).
  pose proof (Iterator_entries _ _ (or_intror Hbuf)) as Hout.
  assert (NoDup (Key <$> out)) as Hnd.
  { rewrite Hout, Key_tuple_of. by apply NoDup_entries, routed_apart. }
  apply NoDup_Permutation.
  - rewrite Hks. by apply NoDup_entries, routed_apart.
  - apply NoDup_fst_map_to_list.
  - intros k. rewrite Hks. split.
    + intros ([k' v] & -> & Hin)%list_elem_of_fmap.
      apply list_elem_of_fmap. exists (k', v). split; [done|].
      apply elem_of_map_to_list, collect_lookup; [done|]. rewrite Hout.
      change (mkTuple k' v) with (tuple_of (k', v)). by apply list_elem_of_fmap_2.
    + intros ([k' v] & -> & Hin%elem_of_map_to_list)%list_elem_of_fmap.
      apply collect_lookup in Hin; [|done]. rewrite Hout in Hin.
      apply list_elem_of_fmap in Hin as ([k'' v'] & [= -> ->] & Hin).
      apply list_elem_of_fmap. by exists (k'', v').
Qed.

Lemma Keys_of_Items_witness :
  Keys_in_turn scenario_ab
    ≡ₚ (map_to_list (collect (Iterator_in_turn scenario_ab))).*1.
Proof.
  apply (Keys_of_Items scenario_ab (Keys_in_turn scenario_ab)
           (collect (Iterator_in_turn scenario_ab)));
    [reflexivity | exact scenario_ab_quiescent | exact scenario_ab_routed | | ].
  - apply Keys_in_turn_run; [reflexivity | exact scenario_ab_quiescent].
  - exists (Iterator_in_turn scenario_ab). split; [|reflexivity].
    exists (snapshot_in_turn scenario_ab).
    split; [apply snapshot_in_turn_run; [reflexivity | exact scenario_ab_quiescent]|].
    apply fan_in_turn_run.
Defined.

(** ** Locks are given back *)

(** X17. A call that starts with no lock held and returns leaves no lock held
    (and the 32 shards in place): [Set], [MSet], [SetIfAbsent],
    [UpdateOrInsert], [Get], [Has], [Remove], [Pop], [Count] and [IteratorCb]
    release what they take. *)
Theorem returns_release_locks m :
  sized m → quiescent m →
  let released {A} (o : outcome ConcurrentMap A) :=
    ∀ a m', o = Returned a m' → sized m' ∧ quiescent m' in
  (∀ k v, released (Set_ k v m)) ∧
  (∀ order, released (MSet_range order m)) ∧
  (∀ k v, released (SetIfAbsent k v m)) ∧
  (∀ k, released (Get k m)) ∧
  (∀ k, released (Has k m)) ∧
  (∀ k, released (Remove k m)) ∧
  (∀ k, released (Pop k m)) ∧
  released (Count m) ∧
  (∀ C k v (cb : UpdateOrInsertCb C) e res m' e',
     UpdateOrInsert k v cb (m, e) = Returned res (m', e') → sized m' ∧ quiescent m') ∧
  (∀ C (fn : IteratorCb_fn C) orders e m' e',
     range_orders m orders →
     IteratorCb fn orders (m, e) = Returned tt (m', e') → sized m' ∧ quiescent m').
Proof.
  intros Hm Hq. cbn zeta.
  assert (∀ k, ∃ sh, m !! shard_index k = Some sh ∧ mu sh = unlocked) as Hk
    by (intros; by apply shard_ready).
  repeat split_and.
  - intros k v a m' Hrun. destruct (Hk k) as (sh & Hi & Hmu).
    erewrite Set_run in Hrun by eauto. injection Hrun as _ <-. split; eauto with cmap.
  - intros order a m' Hrun.
    destruct (MSet_range_ready order m Hm Hq) as (m'' & Hrun' & ? & ? & _).
    rewrite Hrun' in Hrun. by injection Hrun as _ <-.
  - intros k v a m' Hrun. destruct (Hk k) as (sh & Hi & Hmu).
    erewrite SetIfAbsent_run in Hrun by eauto.
    destruct (items sh !! k); injection Hrun as <- <-; split; eauto with cmap.
  - intros k a m' Hrun. destruct (Hk k) as (sh & Hi & Hmu).
    erewrite Get_run in Hrun by eauto. by injection Hrun as <- <-.
  - intros k a m' Hrun. destruct (Hk k) as (sh & Hi & Hmu).
    erewrite Has_run in Hrun by eauto. by injection Hrun as <- <-.
  - intros k a m' Hrun. destruct (Hk k) as (sh & Hi & Hmu).
    erewrite Remove_run in Hrun by eauto. injection Hrun as _ <-. split; eauto with cmap.
  - intros k a m' Hrun. destruct (Hk k) as (sh & Hi & Hmu).
    erewrite Pop_run in Hrun by eauto. injection Hrun as <- <-. split; eauto with cmap.
  - intros a m' Hrun. rewrite Count_run in Hrun by done. by injection Hrun as <- <-.
  - intros C k v cb e res m' e' Hrun. destruct (Hk k) as (sh & Hi & Hmu).
    erewrite UpdateOrInsert_run in Hrun by eauto. cbn zeta in Hrun.
    destruct (cb _ _ _ _) as [[res'|p] e'']; [|done].
    injection Hrun as <- <- <-. split; eauto with cmap.
  - intros C fn orders e m' e' Horders Hrun.
    assert (0 + length orders ≤ length m)%nat as Hlen.
    { apply Forall2_length in Horders. lia. }
    pose proof (IteratorCb_loop_outcomes fn orders m 0 e Hq Hlen) as Hout.
    unfold IteratorCb in Hrun. rewrite Hrun in Hout. cbn in Hout. by subst m'.
Qed.

Lemma returns_release_locks_witness :
  sized (final (Set_ "a" (int_iface 3) scenario_ab)) ∧
  quiescent (final (Set_ "a" (int_iface 3) scenario_ab)).
Proof.
  pose proof (returns_release_locks scenario_ab eq_refl scenario_ab_quiescent) as H.
  cbn zeta in H.
  apply (proj1 H "a" (int_iface 3) tt (final (Set_ "a" (int_iface 3) scenario_ab))).
  vm_compute. reflexivity.
Defined.

(** ** [Has] and [Get] *)

(** X18. In every state of the map and of its locks, [Has(k)] ends as [Get(k)]
    ends (returns, panics, blocks; in the same state) and returns the flag
    that [Get(k)] returns. *)
Theorem Has_is_Get_flag k m :
  Has k m =
    match Get k m with
    | Returned (_, ok) m' => Returned ok m'
    | Panicked p m' => Panicked p m'
    | Blocked m' => Blocked m'
    end.
Proof.
  unfold Has, Get; unfold_bind.
  destruct (GetShard k m) as [i m0|p m0|m0]; [|done..].
  destruct (RLock i m0) as [[] m1|p m1|m1]; [|done..].
  destruct (load i k m1) as [[val ok] m2|p m2|m2]; [|done..].
  by destruct (RUnlock i m2) as [[] m3|p m3|m3].
Qed.

(** * Properties of the logger *)

(** ** Names of the severities *)

(** X19. The five severities have five different names, and a number is named
    "unknown" exactly when it is none of them. *)
Theorem severityToString_names s1 s2 :
  (severityToString s1 = "unknown" ↔ ¬ (-1 ≤ s1 ≤ 3)) ∧
  (-1 ≤ s1 ≤ 3 → severityToString s1 = severityToString s2 → s1 = s2).
Proof.
  assert (∀ s, s = -1 ∨ s = 0 ∨ s = 1 ∨ s = 2 ∨ s = 3 ∨ ¬ (-1 ≤ s ≤ 3)) as Hcases
    by (intros; lia).
  assert (∀ s, ¬ (-1 ≤ s ≤ 3) → severityToString s = "unknown") as Hunknown.
  { intros s Hs. unfold severityToString, LogFatal, LogError, LogInfo, LogWarning, LogDebug.
    repeat case_decide; (done || lia). }
  split.
  - split; [|by apply Hunknown].
    intros Hname Hs. destruct (Hcases s1) as [->|[->|[->|[->|[->|?]]]]]; done.
  - intros Hs Heq.
    destruct (Hcases s1) as [->|[->|[->|[->|[->|?]]]]]; [..|done];
      destruct (Hcases s2) as [->|[->|[->|[->|[->|Hs2]]]]];
      try done; by rewrite (Hunknown s2 Hs2) in Heq.
Qed.

Lemma severityToString_names_witness : LogWarning = 1.
Proof.
  apply (proj2 (severityToString_names LogWarning 1));
    [unfold LogWarning; lia | reflexivity].
Defined.

(** ** What a call prints *)

Section logging.
Context (PathSeparator : Ascii.ascii) (Sprintf : string → list iface → string).
Context (Marshal_event : log_event → option string).
Context (Marshal_row : jsonLogRow → option string).


(** X20. A call of [logWithSeverity] leaves the settings and the exit status as
    they are and adds at most one line to those printed before: none when
    the severity is above the current one, and exactly one, in the text
    format, when it is not. *)
Theorem logWithSeverity_threshold ts f severity event format a p :
  let p' := logWithSeverity PathSeparator Sprintf Marshal_event Marshal_row ts f severity event format a p in
  settings p' = settings p ∧
  exit_status p' = exit_status p ∧
  ∃ rows, printed p' = printed p ++ rows ∧
          (length rows ≤ 1)%nat ∧
          (CurrentLogSeverity (settings p) < severity → rows = []) ∧
          (severity ≤ CurrentLogSeverity (settings p) →
             CurrentLogFormat (settings p) = LogTextFormat → length rows = 1%nat).
Proof.
  cbn zeta. unfold logWithSeverity.
  destruct (getCallerStack PathSeparator f) as [[lineNumber fileName] methodName].
  destruct (decide (severity ≤ _)) as [Hle|Hgt].
  - destruct (decide (_ = LogTextFormat)) as [Htext|Hjson].
    + split; [done|]. split; [done|]. eexists. split; [done|]. cbn.
      split; [lia|]. split; [lia|done].
    + destruct (Marshal_row _) as [bv|]; (split; [done|]; split; [done|]).
      * eexists. split; [done|]. cbn. split; [lia|]. split; [lia|done].
      * exists []. rewrite app_nil_r. split; [done|]. cbn. split; [lia|done].
  - split; [done|]. split; [done|]. exists []. rewrite app_nil_r.
    split; [done|]. cbn. split; [lia|]. split; [done|lia].
Qed.

(** X21. In the text format the line is
    "[timestamp][severity name][file][line] message", with the file and line
    of [getCallerStack]; the event and the name of the calling function do
    not appear in it, so that a call with an event prints what the call
    without one prints. *)
Theorem text_row_has_no_event ts f severity event format a p :
  severity ≤ CurrentLogSeverity (settings p) →
  CurrentLogFormat (settings p) = LogTextFormat →
  printed (logWithSeverity PathSeparator Sprintf Marshal_event Marshal_row ts f severity event format a p)
    = printed p ++
      ["[" +:+ ts +:+ "][" +:+ severityToString severity +:+ "]["
           +:+ (getCallerStack PathSeparator f).1.2 +:+ "][" +:+ itoa (getCallerStack PathSeparator f).1.1
           +:+ "] " +:+ Sprintf format a] ∧
  logWithSeverity PathSeparator Sprintf Marshal_event Marshal_row ts f severity event format a p
    = logWithSeverity PathSeparator Sprintf Marshal_event Marshal_row ts f severity (ev nil_iface) format a p.
Proof.
  intros Hle Htext. unfold logWithSeverity.
  destruct (getCallerStack PathSeparator f) as [[lineNumber fileName] methodName].
  by rewrite !decide_True by done.
Qed.


(** X23. After [SetLogSeverity(t)], in the text format, each of [Debug],
    [Info], [Warning], [Error] and [Fatal] prints its line exactly when its
    severity (3, 2, 1, 0, -1) is at most [t].  [Fatal] ends the process with
    status 255 whether it printed or not; the others leave the exit status
    alone. *)
Theorem levels_and_threshold ts f format a t p :
  CurrentLogFormat (settings p) = LogTextFormat →
  let q := SetLogSeverity t p in
  let grows (p' : process) := length (printed p') = S (length (printed p)) in
  let same (p' : process) := printed p' = printed p in
  (if decide (3 ≤ t) then grows (Debug PathSeparator Sprintf Marshal_event Marshal_row ts f format a q)
   else same (Debug PathSeparator Sprintf Marshal_event Marshal_row ts f format a q)) ∧
  (if decide (2 ≤ t) then grows (Info PathSeparator Sprintf Marshal_event Marshal_row ts f format a q)
   else same (Info PathSeparator Sprintf Marshal_event Marshal_row ts f format a q)) ∧
  (if decide (1 ≤ t) then grows (Warning PathSeparator Sprintf Marshal_event Marshal_row ts f format a q)
   else same (Warning PathSeparator Sprintf Marshal_event Marshal_row ts f format a q)) ∧
  (if decide (0 ≤ t) then grows (Error PathSeparator Sprintf Marshal_event Marshal_row ts f format a q)
   else same (Error PathSeparator Sprintf Marshal_event Marshal_row ts f format a q)) ∧
  (if decide (-1 ≤ t) then grows (Fatal PathSeparator Sprintf Marshal_event Marshal_row ts f format a q)
   else same (Fatal PathSeparator Sprintf Marshal_event Marshal_row ts f format a q)) ∧
  exit_status (Fatal PathSeparator Sprintf Marshal_event Marshal_row ts f format a q) = Some 255 ∧
  exit_status (Error PathSeparator Sprintf Marshal_event Marshal_row ts f format a q) = exit_status p ∧
  exit_status (Debug PathSeparator Sprintf Marshal_event Marshal_row ts f format a q) = exit_status p.
Proof.
  intros Htext. cbn zeta.
  unfold Debug, Info, Warning, Error, Fatal, Exit, logWithSeverity,
    LogDebug, LogInfo, LogWarning, LogError, LogFatal.
  destruct (getCallerStack PathSeparator f) as [[lineNumber fileName] methodName].
  cbn [SetLogSeverity settings CurrentLogSeverity CurrentLogFormat printed exit_status].
  rewrite !(decide_True (P := _ = LogTextFormat)) by done.
  repeat split; repeat case_decide; cbn;
    rewrite ?length_app; cbn; (done || lia).
Qed.
End logging.

(** ** Strings *)

Lemma append_cons c s t : String c s +:+ t = String c (s +:+ t).
Proof. done. Qed.

Lemma append_nil_r s : s +:+ "" = s.
Proof. induction s as [|c s IH]; [done|]. by rewrite append_cons, IH. Qed.

Lemma append_assoc s t u : (s +:+ t) +:+ u = s +:+ t +:+ u.
Proof. induction s as [|c s IH]; [done|]. by rewrite !append_cons, IH. Qed.

Lemma length_append s t :
  String.length (s +:+ t) = (String.length s + String.length t)%nat.
Proof. induction s as [|c s IH]; [done|]. rewrite append_cons. cbn. by rewrite IH. Qed.

Lemma prefix_byte c x rest :
  String.prefix (String c "") (String x rest) = bool_decide (c = x).
Proof.
  cbn. destruct (Ascii.ascii_dec c x) as [->|Hne].
  - rewrite bool_decide_eq_true_2 by done. by destruct rest.
  - by rewrite bool_decide_eq_false_2.
Qed.

Lemma slice_from_append pre t :
  slice_from (String.length pre) (pre +:+ t) = t.
Proof. induction pre as [|c pre IH]; [by destruct t|]. by rewrite append_cons. Qed.

Section one_byte.
Context (c : Ascii.ascii).
#[local] Abbreviation sep := (String c "").
#[local] Abbreviation free s := (c ∉ String.list_ascii_of_string s).

Lemma free_cons x s : free (String x s) ↔ c ≠ x ∧ free s.
Proof. cbn. by rewrite not_elem_of_cons. Qed.

Lemma Split_from_free s : ∀ piece,
  free s → Split_from sep 0 piece s = [piece +:+ s].
Proof.
  induction s as [|x s IH]; intros piece Hs; [by rewrite append_nil_r|].
  apply free_cons in Hs as [Hne Hs].
  cbn [Split_from]. rewrite prefix_byte, bool_decide_eq_false_2 by done.
  rewrite IH by done. by rewrite append_assoc.
Qed.

(** Cutting at the last separator: the pieces before it, then what follows. *)
Lemma Split_from_last t s : ∀ piece,
  free t →
  Split_from sep 0 piece (s +:+ String c t) = Split_from sep 0 piece s ++ [t].
Proof.
  intros piece Ht. revert piece. induction s as [|x s IH]; intros piece.
  - change ("" +:+ String c t) with (String c t).
    cbn [Split_from]. rewrite prefix_byte, bool_decide_eq_true_2 by done.
    cbn. by rewrite Split_from_free.
  - rewrite append_cons. cbn [Split_from]. rewrite !prefix_byte.
    case_bool_decide; cbn; by rewrite IH.
Qed.

Lemma Split_byte s : Split s sep = Split_from sep 0 "" s.
Proof. done. Qed.

Lemma LastIndex_from_free s : ∀ i found,
  free s → LastIndex_from sep s i found = found.
Proof.
  induction s as [|x s IH]; intros i found Hs; [done|].
  apply free_cons in Hs as [Hne Hs].
  cbn [LastIndex_from]. rewrite prefix_byte, bool_decide_eq_false_2 by done.
  by apply IH.
Qed.

Lemma LastIndex_from_last t s : ∀ i found,
  free t →
  LastIndex_from sep (s +:+ String c t) i found = i + Z.of_nat (String.length s).
Proof.
  intros i found Ht. revert i found. induction s as [|x s IH]; intros i found.
  - change ("" +:+ String c t) with (String c t).
    cbn [LastIndex_from]. rewrite prefix_byte, bool_decide_eq_true_2 by done.
    rewrite LastIndex_from_free by done. cbn. lia.
  - rewrite append_cons. cbn [LastIndex_from]. rewrite IH. cbn [String.length]. lia.
Qed.
End one_byte.

Section caller.
Context (PathSeparator : Ascii.ascii).

Lemma buildFilename_free c s :
  c ∉ String.list_ascii_of_string s → buildFilename PathSeparator s (String c "") = (s, false).
Proof.
  intros Hs. unfold buildFilename.
  rewrite Split_byte, Split_from_free by done. cbn.
  rewrite decide_True, decide_False by lia. done.
Qed.

Lemma buildFilename_cut c dir a b :
  dir = "" ∨ (∃ d, dir = d +:+ String c "") →
  c ∉ String.list_ascii_of_string a →
  c ∉ String.list_ascii_of_string b →
  buildFilename PathSeparator (dir +:+ a +:+ String c b) (String c "")
    = (a +:+ String PathSeparator "" +:+ b, true).
Proof.
  intros Hdir Ha Hb. unfold buildFilename.
  rewrite Split_byte, <- append_assoc, Split_from_last by done.
  assert (∃ pieces, Split_from (String c "") 0 "" (dir +:+ a) = pieces ++ [a])
    as [pieces ->].
  { destruct Hdir as [->|[d ->]].
    - exists []. by rewrite Split_from_free.
    - rewrite append_assoc, (append_cons c "" a).
      eexists. by apply Split_from_last. }
  rewrite <- app_assoc. cbn [app].
  rewrite !length_app. cbn [length].
  rewrite decide_True, decide_True by lia.
  replace (length pieces + 2 - 2)%nat with (length pieces + 0)%nat by lia.
  replace (length pieces + 2 - 1)%nat with (length pieces + 1)%nat by lia.
  by rewrite !lookup_total_app_r, !Nat.add_sub' by lia.
Qed.

(** X24. For a separator of one byte: [buildFilename] returns its input and
    [false] when the separator does not occur in it; otherwise it returns
    [true] and the last two of the pieces between separators, joined by the
    path separator of the platform. *)
Theorem buildFilename_last_two c s :
  (c ∉ String.list_ascii_of_string s → buildFilename PathSeparator s (String c "") = (s, false)) ∧
  (∀ dir a b,
     s = dir +:+ a +:+ String c b →
     dir = "" ∨ (∃ d, dir = d +:+ String c "") →
     c ∉ String.list_ascii_of_string a →
     c ∉ String.list_ascii_of_string b →
     buildFilename PathSeparator s (String c "") = (a +:+ String PathSeparator "" +:+ b, true)).
Proof.
  split; [apply buildFilename_free|].
  intros dir a b -> Hdir Ha Hb. by apply buildFilename_cut.
Qed.

(** X25. [getCallerStack] returns the line it is given; as function name the
    name without everything up to its last "/" (the name itself when it has
    no "/", and "/" when it ends with one); as file the last two pieces of
    the path between "/", or between "\" for a path without "/", joined by
    the path separator (the path itself when it has neither).  Without
    information on the caller it returns 0 and two empty strings. *)
Theorem getCallerStack_short_names fileName lineNumber name :
  getCallerStack PathSeparator None = (0, "", "") ∧
  (getCallerStack PathSeparator (Some (fileName, lineNumber, name))).1.1 = lineNumber ∧
  (slash ∉ String.list_ascii_of_string name →
     (getCallerStack PathSeparator (Some (fileName, lineNumber, name))).2 = name) ∧
  (∀ pre last,
     name = pre +:+ "/" +:+ last →
     slash ∉ String.list_ascii_of_string last →
     (getCallerStack PathSeparator (Some (fileName, lineNumber, name))).2
       = if decide (last = "") then "/" else last) ∧
  (slash ∉ String.list_ascii_of_string fileName →
   backslash ∉ String.list_ascii_of_string fileName →
     (getCallerStack PathSeparator (Some (fileName, lineNumber, name))).1.2 = fileName) ∧
  (∀ dir a b,
     fileName = dir +:+ a +:+ "/" +:+ b →
     dir = "" ∨ (∃ d, dir = d +:+ "/") →
     slash ∉ String.list_ascii_of_string a →
     slash ∉ String.list_ascii_of_string b →
     (getCallerStack PathSeparator (Some (fileName, lineNumber, name))).1.2
       = a +:+ String PathSeparator "" +:+ b) ∧
  (∀ dir a b,
     fileName = dir +:+ a +:+ "\" +:+ b →
     dir = "" ∨ (∃ d, dir = d +:+ "\") →
     slash ∉ String.list_ascii_of_string fileName →
     backslash ∉ String.list_ascii_of_string a →
     backslash ∉ String.list_ascii_of_string b →
     (getCallerStack PathSeparator (Some (fileName, lineNumber, name))).1.2
       = a +:+ String PathSeparator "" +:+ b).
Proof.
  split; [done|]. unfold getCallerStack.
  change "/" with (String slash ""). change "\" with (String backslash "").
  split; [by destruct (buildFilename PathSeparator _ _) as [file []]|].
  split; [|split; [|split; [|split]]].
  - intros Hname. destruct (buildFilename PathSeparator _ _) as [file ok]. cbn [snd].
    unfold LastIndex. rewrite LastIndex_from_free by done.
    by rewrite decide_False by lia.
  - intros pre last -> Hlast. destruct (buildFilename PathSeparator _ _) as [file ok]. cbn [snd].
    unfold LastIndex. rewrite (append_cons slash "" last).
    change ("" +:+ last) with last.
    rewrite LastIndex_from_last by done.
    rewrite decide_True by lia. rewrite length_append. cbn [String.length].
    destruct last as [|x last].
    + rewrite decide_False by (cbn; lia). rewrite decide_True by done.
      rewrite Z.add_0_l, Nat2Z.id.
      by rewrite slice_from_append.
    + rewrite decide_True by (cbn [String.length]; lia).
      rewrite decide_False by done.
      replace (Z.to_nat (0 + Z.of_nat (String.length pre) + 1))
        with (String.length (pre +:+ String slash "")).
      * rewrite <- (slice_from_append (pre +:+ String slash "") (String x last)) at 2.
        by rewrite append_assoc.
      * rewrite length_append. cbn. lia.
  - intros Hs Hb. rewrite buildFilename_free by done. cbn [fst snd].
    by rewrite buildFilename_free.
  - intros dir a b -> Hdir Ha Hb.
    change (String slash "" +:+ b) with (String slash b).
    by rewrite buildFilename_cut.
  - intros dir a b -> Hdir Hs Ha Hb. rewrite buildFilename_free by done.
    cbn [fst snd]. change (String backslash "" +:+ b) with (String backslash b).
    by rewrite buildFilename_cut.
Qed.
End caller.

(** ** The logger on concrete calls *)

Lemma text_row_has_no_event_witness :
  printed (logWithSeverity slash plain_Sprintf picky_Marshal_event picky_Marshal_row
             "2026-01-01T00:00:00.000Z"
             (Some ("/home/u/proj/pkg/file.go", 42, "github.com/x/pkg.Func"))
             LogWarning (eventToEventId "id" (int_iface 7)) "disk full" [] start)
    = printed start ++
      ["[" +:+ "2026-01-01T00:00:00.000Z" +:+ "][" +:+ severityToString LogWarning +:+ "]["
           +:+ (getCallerStack slash
                  (Some ("/home/u/proj/pkg/file.go", 42, "github.com/x/pkg.Func"))).1.2
           +:+ "][" +:+ itoa (getCallerStack slash
                  (Some ("/home/u/proj/pkg/file.go", 42, "github.com/x/pkg.Func"))).1.1
           +:+ "] " +:+ plain_Sprintf "disk full" []] ∧
  logWithSeverity slash plain_Sprintf picky_Marshal_event picky_Marshal_row
    "2026-01-01T00:00:00.000Z"
    (Some ("/home/u/proj/pkg/file.go", 42, "github.com/x/pkg.Func"))
    LogWarning (eventToEventId "id" (int_iface 7)) "disk full" [] start
  = logWithSeverity slash plain_Sprintf picky_Marshal_event picky_Marshal_row
      "2026-01-01T00:00:00.000Z"
      (Some ("/home/u/proj/pkg/file.go", 42, "github.com/x/pkg.Func"))
      LogWarning (ev nil_iface) "disk full" [] start.
Proof.
  apply (text_row_has_no_event slash plain_Sprintf picky_Marshal_event picky_Marshal_row
           "2026-01-01T00:00:00.000Z"
           (Some ("/home/u/proj/pkg/file.go", 42, "github.com/x/pkg.Func"))
           LogWarning (eventToEventId "id" (int_iface 7)) "disk full" [] start);
    [vm_compute; discriminate | reflexivity].
Defined.

Example text_row_example :
  printed (Warning slash plain_Sprintf picky_Marshal_event picky_Marshal_row
             "2026-01-01T00:00:00.000Z"
             (Some ("/home/u/proj/pkg/file.go", 42, "github.com/x/pkg.Func"))
             "disk full" [] start)
  = ["[2026-01-01T00:00:00.000Z][warning][pkg/file.go][42] disk full"].
Proof. vm_compute. reflexivity. Qed.


Lemma buildFilename_last_two_witness :
  buildFilename slash "/home/u/proj/pkg/file.go" (String slash "")
  = ("pkg" +:+ String slash "" +:+ "file.go", true).
Proof.
  apply (proj2 (buildFilename_last_two slash slash "/home/u/proj/pkg/file.go")
           "/home/u/proj/" "pkg" "file.go");
    [reflexivity | right; by exists "/home/u/proj"
    | apply (bool_decide_unpack _); vm_compute; exact I
    | apply (bool_decide_unpack _); vm_compute; exact I].
Defined.

Lemma getCallerStack_short_names_witness :
  (getCallerStack slash
     (Some ("/home/u/proj/pkg/file.go", 42, "github.com/x/pkg.Func"))).2
  = (if decide ("pkg.Func" = "") then "/" else "pkg.Func").
Proof.
  apply (proj1 (proj2 (proj2 (proj2
           (getCallerStack_short_names slash "/home/u/proj/pkg/file.go" 42
              "github.com/x/pkg.Func")))) "github.com/x" "pkg.Func");
    [reflexivity | apply (bool_decide_unpack _); vm_compute; exact I].
Defined.

Example getCallerStack_examples :
  getCallerStack slash (Some ("/home/u/proj/pkg/file.go", 42, "github.com/x/pkg.Func"))
    = (42, "pkg/file.go", "pkg.Func") ∧
  getCallerStack slash (Some ("C:\x\y.go", 7, "main.main")) = (7, "x/y.go", "main.main") ∧
  getCallerStack slash (Some ("file.go", 7, "a/b/")) = (7, "file.go", "/").
Proof. repeat split; vm_compute; reflexivity. Qed.

Lemma levels_and_threshold_witness :
  exit_status (Fatal slash plain_Sprintf picky_Marshal_event picky_Marshal_row
                 "2026-01-01T00:00:00.000Z" None "giving up" []
                 (SetLogSeverity (-2) start)) = Some 255 ∧
  printed (Fatal slash plain_Sprintf picky_Marshal_event picky_Marshal_row
             "2026-01-01T00:00:00.000Z" None "giving up" []
             (SetLogSeverity (-2) start)) = printed start.
Proof.
  pose proof (levels_and_threshold slash plain_Sprintf picky_Marshal_event
                picky_Marshal_row "2026-01-01T00:00:00.000Z" None "giving up" []
                (-2) start eq_refl) as H.
  cbn zeta in H. destruct H as (_ & _ & _ & _ & Hfatal & Hexit & _).
  split; [exact Hexit | exact Hfatal].
Defined.
